(** * The scrobble service of web-scrobbler

    A shallow embedding of [src/core/background/services/scrobbleService.js].

    The service keeps two module-level arrays of scrobbler objects
    ([boundScrobblers], [registeredScrobblers]), and fans requests out to the
    bound scrobblers through promises.  Scrobbler objects are modelled by
    their references; what their methods answer is given by the [Scrobblers]
    interface.  Promise handlers are run by an explicit event loop: a call
    creates a pending task, and a [Settle] event runs the handler of one of
    its promises.  Calls and handlers run to completion, one at a time, as
    JavaScript runs them; the order of the events is free.

    What a scrobbler answers to a request is a function of the scrobbler
    and the request.  The methods of the scrobblers, the notifier and
    [chrome.tabs] do not throw and do not call back into the service. *)

From Stdlib Require Import String.
From stdpp Require Import base list strings.

(** ** Values *)

(** A scrobbler is a JavaScript object; [s !== scrobbler] compares
    references. *)
Definition Scrobbler := nat.
Definition Song := nat.
Definition Url := string.

(** The object a scrobbler rejects with. *)
Record CallResult := { resultId : nat; isAuthError : bool }.

(** What a promise can carry. *)
Inductive JsValue :=
| Undefined
| Plain (v : nat)
| Result (r : CallResult).

Inductive Settled :=
| Resolved (v : JsValue)
| Rejected (r : CallResult).

Inductive Request :=
| NowPlaying (song : Song)
| Scrobble (song : Song)
| ToggleLove (song : Song) (flag : bool).

Inductive Method :=
| GetSession
| GetAuthUrl
| Submit (req : Request).

(** The methods of the scrobbler objects.  [getSession] tells whether the
    promise resolves, [getAuthUrl] gives the URL it resolves with, if any,
    and [request] gives how [sendNowPlaying], [scrobble] and [toggleLove]
    of the scrobbler settle. *)
Class Scrobblers := {
  getLabel : Scrobbler → string;
  getStatusUrl : Scrobbler → Url;
  getSession : Scrobbler → bool;
  getAuthUrl : Scrobbler → option Url;
  request : Scrobbler → Request → Settled
}.

(** ** State of the module *)

Inductive ConsoleLine :=
| LogRegister (label : string)
| WarnUnableToBind (label : string)
| LogBind (label : string)
| LogUnbind (label : string)
| ErrorNotBound (label : string)
| LogUnableToGetAuthUrl (label : string)
| LogSendNowPlaying (n : nat)
| LogSendScrobble (n : nat).

Inductive Notification :=
| ShowAuthenticate (label : string) (authUrl : Url)
| ShowSignInError (label : string) (statusUrl : Url).

Record State := {
  boundScrobblers : list Scrobbler;
  registeredScrobblers : list Scrobbler;
  console : list ConsoleLine;
  notifications : list Notification;
  tabs : list Url;
  invocations : list (Scrobbler * Method)
}.

Definition initialState : State :=
  {| boundScrobblers := []; registeredScrobblers := []; console := [];
     notifications := []; tabs := []; invocations := [] |}.

Definition setBound (b : list Scrobbler) (st : State) : State :=
  {| boundScrobblers := b;
     registeredScrobblers := registeredScrobblers st;
     console := console st;
     notifications := notifications st;
     tabs := tabs st;
     invocations := invocations st |}.

Definition setRegistered (r : list Scrobbler) (st : State) : State :=
  {| boundScrobblers := boundScrobblers st;
     registeredScrobblers := r;
     console := console st;
     notifications := notifications st;
     tabs := tabs st;
     invocations := invocations st |}.

Definition consoleWrite (line : ConsoleLine) (st : State) : State :=
  {| boundScrobblers := boundScrobblers st;
     registeredScrobblers := registeredScrobblers st;
     console := console st ++ [line];
     notifications := notifications st;
     tabs := tabs st;
     invocations := invocations st |}.

Definition notify (n : Notification) (st : State) : State :=
  {| boundScrobblers := boundScrobblers st;
     registeredScrobblers := registeredScrobblers st;
     console := console st;
     notifications := notifications st ++ [n];
     tabs := tabs st;
     invocations := invocations st |}.

Definition tabsCreate (url : Url) (st : State) : State :=
  {| boundScrobblers := boundScrobblers st;
     registeredScrobblers := registeredScrobblers st;
     console := console st;
     notifications := notifications st;
     tabs := tabs st ++ [url];
     invocations := invocations st |}.

Definition invoke (s : Scrobbler) (m : Method) (st : State) : State :=
  {| boundScrobblers := boundScrobblers st;
     registeredScrobblers := registeredScrobblers st;
     console := console st;
     notifications := notifications st;
     tabs := tabs st;
     invocations := invocations st ++ [(s, m)] |}.

(** ** Pending promises *)

Inductive Job :=
| JobSession
| JobAuth (label : string) (notify : bool)
| JobSubmit (req : Request).

(** One call of the service that waits for scrobblers: the scrobblers it
    addressed, and per scrobbler the value its handler produced, once it
    ran. *)
Record Task := {
  job : Job;
  targets : list Scrobbler;
  slots : list (option JsValue)
}.

Record Runtime := {
  service : State;
  pending : list Task
}.

Inductive Event :=
| CallRegisterScrobblers (unboundScrobblers : list Scrobbler)
| CallBindScrobbler (scrobbler : Scrobbler)
| CallUnbindScrobbler (scrobbler : Scrobbler)
| CallAuthenticateScrobbler (scrobbler : Scrobbler) (notify : bool)
| CallSendNowPlaying (song : Song)
| CallScrobble (song : Song)
| CallToggleLove (song : Song) (flag : bool)
| Settle (task : nat) (slot : nat).

Section Service.
Context `{Scrobblers}.

(** ** The functions of the module *)

Definition isScrobblerInArray (scrobbler : Scrobbler) (array : list Scrobbler) : bool :=
  existsb (λ s, String.eqb (getLabel s) (getLabel scrobbler)) array.

Definition registerScrobbler (scrobbler : Scrobbler) (st : State) : State :=
  if negb (isScrobblerInArray scrobbler (registeredScrobblers st)) then
    setRegistered (registeredScrobblers st ++ [scrobbler])
      (consoleWrite (LogRegister (getLabel scrobbler)) st)
  else st.

Definition bindScrobbler (scrobbler : Scrobbler) (st : State) : State :=
  if negb (isScrobblerInArray scrobbler (boundScrobblers st)) then
    consoleWrite (LogBind (getLabel scrobbler))
      (setBound (boundScrobblers st ++ [scrobbler]) st)
  else st.

Definition unbindScrobbler (scrobbler : Scrobbler) (st : State) : State :=
  if isScrobblerInArray scrobbler (boundScrobblers st) then
    consoleWrite (LogUnbind (getLabel scrobbler))
      (setBound (filter (λ s, s ≠ scrobbler) (boundScrobblers st)) st)
  else consoleWrite (ErrorNotBound (getLabel scrobbler)) st.

Definition getRegisteredScrobblers (st : State) : list Scrobbler :=
  registeredScrobblers st.

Fixpoint findByLabel (label : string) (array : list Scrobbler) : option Scrobbler :=
  match array with
  | [] => None
  | scrobbler :: rest =>
      if String.eqb (getLabel scrobbler) label then Some scrobbler
      else findByLabel label rest
  end.

Definition getScrobblerByLabel (label : string) (st : State) : option Scrobbler :=
  findByLabel label (registeredScrobblers st).

(** *** Handlers *)

(** [getSession().then(...).catch(...)] of [registerScrobblers]. *)
Definition onSession (scrobbler : Scrobbler) (st : State) : State * JsValue :=
  if getSession scrobbler then (bindScrobbler scrobbler st, Undefined)
  else (consoleWrite (WarnUnableToBind (getLabel scrobbler)) st, Undefined).

(** [getAuthUrl().then(...).catch(...)] of [authenticateScrobbler]; [label]
    was read when the call was made. *)
Definition onAuthUrl (label : string) (notify_ : bool) (scrobbler : Scrobbler)
    (st : State) : State * JsValue :=
  match getAuthUrl scrobbler with
  | Some authUrl =>
      let st1 := bindScrobbler scrobbler st in
      (if notify_ then notify (ShowAuthenticate label authUrl) st1
       else tabsCreate authUrl st1, Undefined)
  | None =>
      let st1 := consoleWrite (LogUnableToGetAuthUrl label) st in
      let statusUrl := getStatusUrl scrobbler in
      (notify (ShowSignInError label statusUrl) st1, Undefined)
  end.

(** The [.catch((result) => ...)] that [sendNowPlaying], [scrobble] and
    [toggleLove] attach to the promise of each scrobbler; a resolved
    promise passes its value on. *)
Definition onSubmit (req : Request) (scrobbler : Scrobbler) (st : State)
    : State * JsValue :=
  match request scrobbler req with
  | Resolved v => (st, v)
  | Rejected result =>
      ((if isAuthError result then unbindScrobbler scrobbler st else st),
       Result result)
  end.

Definition handler (j : Job) : Scrobbler → State → State * JsValue :=
  match j with
  | JobSession => onSession
  | JobAuth label notify_ => onAuthUrl label notify_
  | JobSubmit req => onSubmit req
  end.

(** *** Calls *)

Definition spawn (j : Job) (ts : list Scrobbler) (st : State) (rt : Runtime) : Runtime :=
  {| service := st;
     pending := pending rt ++
       [{| job := j; targets := ts; slots := replicate (length ts) None |}] |}.

Definition invokeAll (m : Method) (ts : list Scrobbler) (st : State) : State :=
  foldl (λ st' s, invoke s m st') st ts.

(** The callback of [unboundScrobblers.map]. *)
Definition registerAndAsk (st : State) (scrobbler : Scrobbler) : State :=
  invoke scrobbler GetSession (registerScrobbler scrobbler st).

Definition registerScrobblers (unboundScrobblers : list Scrobbler) (rt : Runtime) : Runtime :=
  spawn JobSession unboundScrobblers
    (foldl registerAndAsk (service rt) unboundScrobblers) rt.

Definition authenticateScrobbler (scrobbler : Scrobbler) (notify_ : bool)
    (rt : Runtime) : Runtime :=
  let label := getLabel scrobbler in
  spawn (JobAuth label notify_) [scrobbler]
    (invoke scrobbler GetAuthUrl (service rt)) rt.

Definition broadcast (req : Request) (st : State) (rt : Runtime) : Runtime :=
  spawn (JobSubmit req) (boundScrobblers st)
    (invokeAll (Submit req) (boundScrobblers st) st) rt.

Definition sendNowPlaying (song : Song) (rt : Runtime) : Runtime :=
  let st := service rt in
  broadcast (NowPlaying song)
    (consoleWrite (LogSendNowPlaying (length (boundScrobblers st))) st) rt.

Definition scrobble (song : Song) (rt : Runtime) : Runtime :=
  let st := service rt in
  broadcast (Scrobble song)
    (consoleWrite (LogSendScrobble (length (boundScrobblers st))) st) rt.

Definition toggleLove (song : Song) (flag : bool) (rt : Runtime) : Runtime :=
  broadcast (ToggleLove song flag) (service rt) rt.

(** *** The event loop *)

(** Runs the handler of promise [i] of a task; a promise settles once. *)
Definition settle (t : Task) (i : nat) (st : State) : State * Task :=
  match targets t !! i, slots t !! i with
  | Some scrobbler, Some None =>
      let '(st', v) := handler (job t) scrobbler st in
      (st', {| job := job t; targets := targets t;
               slots := <[i := Some v]> (slots t) |})
  | _, _ => (st, t)
  end.

Definition step (rt : Runtime) (ev : Event) : Runtime :=
  match ev with
  | CallRegisterScrobblers us => registerScrobblers us rt
  | CallBindScrobbler s =>
      {| service := bindScrobbler s (service rt); pending := pending rt |}
  | CallUnbindScrobbler s =>
      {| service := unbindScrobbler s (service rt); pending := pending rt |}
  | CallAuthenticateScrobbler s notify_ => authenticateScrobbler s notify_ rt
  | CallSendNowPlaying song => sendNowPlaying song rt
  | CallScrobble song => scrobble song rt
  | CallToggleLove song flag => toggleLove song flag rt
  | Settle tid i =>
      match pending rt !! tid with
      | Some t =>
          let '(st', t') := settle t i (service rt) in
          {| service := st'; pending := <[tid := t']> (pending rt) |}
      | None => rt
      end
  end.

Definition run (rt : Runtime) (evs : list Event) : Runtime :=
  foldl step rt evs.

(** What [Promise.all] resolves with, once every promise has settled. *)
Fixpoint collect (sl : list (option JsValue)) : option (list JsValue) :=
  match sl with
  | [] => Some []
  | Some v :: rest =>
      match collect rest with
      | Some vs => Some (v :: vs)
      | None => None
      end
  | None :: _ => None
  end.

Definition results (rt : Runtime) (tid : nat) : option (list JsValue) :=
  match pending rt !! tid with
  | Some t => collect (slots t)
  | None => None
  end.

(** The entry a scrobbler contributes to the result of a broadcast. *)
Definition entry (req : Request) (scrobbler : Scrobbler) : JsValue :=
  match request scrobbler req with
  | Resolved v => v
  | Rejected result => Result result
  end.

Definition authFails (req : Request) (scrobbler : Scrobbler) : bool :=
  match request scrobbler req with
  | Resolved _ => false
  | Rejected result => isAuthError result
  end.

(** *** Vocabulary of the statements *)

Definition labels (arr : list Scrobbler) : list string := getLabel <$> arr.

(** The entries of an array that carry a given label. *)
Definition withLabel (l : string) (arr : list Scrobbler) : list Scrobbler :=
  filter (λ s, getLabel s = l) arr.

(** No two entries of either array share a label. *)
Definition labelsUnique (st : State) : Prop :=
  NoDup (labels (boundScrobblers st)) ∧ NoDup (labels (registeredScrobblers st)).

(** A pending task is the fan-out of [req] over the array [B]: each
    promise that has settled holds the entry of the scrobbler at its
    position. *)
Definition tracks (req : Request) (B : list Scrobbler) (t : Task) : Prop :=
  job t = JobSubmit req ∧ targets t = B ∧ length (slots t) = length B ∧
  ∀ i v, slots t !! i = Some (Some v) →
         ∃ s, B !! i = Some s ∧ v = entry req s.

Definition filled (t : Task) (i : nat) : Prop :=
  ∃ v, slots t !! i = Some (Some v).

(** The scrobblers of [B], in the order [sched] in which their promises
    settle, that reject [req] with an authentication error. *)
Definition unboundBy (req : Request) (B : list Scrobbler) (sched : list nat)
    : list Scrobbler :=
  omap (λ i, s ← B !! i; if authFails req s then Some s else None) sched.

(** The state once the scrobblers [gone] were unbound, each found bound. *)
Definition afterUnbinds (gone : list Scrobbler) (st : State) : State :=
  {| boundScrobblers := filter (λ s, s ∉ gone) (boundScrobblers st);
     registeredScrobblers := registeredScrobblers st;
     console := console st ++ (LogUnbind <$> labels gone);
     notifications := notifications st;
     tabs := tabs st;
     invocations := invocations st |}.

(** The slots of a fan-out of [req] over [B] when the promises at the
    positions [sched] have settled. *)
Definition slotsAfter (req : Request) (B : list Scrobbler) (sched : list nat)
    : list (option JsValue) :=
  imap (λ i s, if decide (i ∈ sched) then Some (entry req s) else None) B.

Definition broadcastCall (req : Request) : Event :=
  match req with
  | NowPlaying song => CallSendNowPlaying song
  | Scrobble song => CallScrobble song
  | ToggleLove song flag => CallToggleLove song flag
  end.

(** *** Vocabulary of the further statements *)

(** The value the handler of a task leaves in the slot of a scrobbler. *)
Definition handlerValue (j : Job) (scrobbler : Scrobbler) : JsValue :=
  match j with
  | JobSubmit req => entry req scrobbler
  | _ => Undefined
  end.

(** The state after the handlers of the promises at the positions [sched]
    of a fan-out over [ts] ran, in that order. *)
Definition settleAll (j : Job) (ts : list Scrobbler) (sched : list nat)
    (st : State) : State :=
  foldl (λ st' i, match ts !! i with
                  | Some s => (handler j s st').1
                  | None => st'
                  end) st sched.

Definition slotsOf (j : Job) (ts : list Scrobbler) (sched : list nat)
    : list (option JsValue) :=
  imap (λ i s, if decide (i ∈ sched) then Some (handlerValue j s) else None) ts.

(** The scrobblers of [arr] whose label is neither in [seen] nor carried
    by an earlier scrobbler of [arr]. *)
Fixpoint keepFirst (seen : list string) (arr : list Scrobbler) : list Scrobbler :=
  match arr with
  | [] => []
  | s :: rest =>
      if decide (getLabel s ∈ seen) then keepFirst seen rest
      else s :: keepFirst (seen ++ [getLabel s]) rest
  end.

(** Every pending task is a broadcast. *)
Definition broadcastsOnly (rt : Runtime) : Prop :=
  Forall (λ t, ∃ req, job t = JobSubmit req) (pending rt).

End Service.

(** ** A concrete set of scrobblers

    Objects 1, 2 and 3 are three services; object 4 is a second handle of
    the service of object 1.  Object 2 has lost its session: its requests
    are rejected with an authentication error.  Object 3 is rejected for
    another reason when asked for [NowPlaying]. *)

Section Demo.
Local Open Scope string_scope.

Definition authFailure : CallResult := {| resultId := 7; isAuthError := true |}.
Definition otherFailure : CallResult := {| resultId := 8; isAuthError := false |}.

Definition demoLabel (s : Scrobbler) : string :=
  match s with
  | 1 | 4 => "Last.fm"
  | 2 => "Libre.fm"
  | 3 => "ListenBrainz"
  | _ => "Unknown"
  end.

Definition demoRequest (s : Scrobbler) (req : Request) : Settled :=
  match s, req with
  | 2, _ => Rejected authFailure
  | 3, NowPlaying _ => Rejected otherFailure
  | _, _ => Resolved (Plain s)
  end.

Definition demo : Scrobblers :=
  {| getLabel := demoLabel;
     getStatusUrl := λ s, "http://status/" ++ demoLabel s;
     getSession := λ s, negb (Nat.eqb s 2);
     getAuthUrl := λ s, if Nat.eqb s 2 then None else Some ("http://auth/" ++ demoLabel s);
     request := demoRequest |}.

Definition demoState (bound : list Scrobbler) : State :=
  setBound bound initialState.

Definition demoRuntime (bound : list Scrobbler) : Runtime :=
  {| service := demoState bound; pending := [] |}.

End Demo.

(** The providers handed to [registerScrobblers] in a trace. *)
Fixpoint registrationInputs (evs : list Event) : list Scrobbler :=
  match evs with
  | [] => []
  | CallRegisterScrobblers us :: rest => us ++ registrationInputs rest
  | _ :: rest => registrationInputs rest
  end.

Definition initialRuntime : Runtime :=
  {| service := initialState; pending := [] |}.

(** The calls of the three broadcasts, and the settling of promises. *)
Definition isBroadcastEvent (ev : Event) : bool :=
  match ev with
  | CallSendNowPlaying _ | CallScrobble _ | CallToggleLove _ _ | Settle _ _ => true
  | _ => false
  end.

(** The part of the state a broadcast can change is the console, the
    record of invocations and, by removal only, the bound array. *)
Definition framed (st st' : State) : Prop :=
  registeredScrobblers st' = registeredScrobblers st
  ∧ notifications st' = notifications st
  ∧ tabs st' = tabs st
  ∧ boundScrobblers st' `sublist_of` boundScrobblers st.

(** ** Membership by label *)

Section Membership.
Context `{Scrobblers}.
Implicit Types (s p q : Scrobbler) (st : State) (arr : list Scrobbler).

Lemma isScrobblerInArray_true s arr :
  isScrobblerInArray s arr = true ↔ getLabel s ∈ labels arr.
Proof.
  unfold isScrobblerInArray, labels. rewrite existsb_exists, list_elem_of_fmap.
  split.
  - intros (x & Hin & Heq). apply String.eqb_eq in Heq.
    exists x. split; [done | by apply list_elem_of_In].
  - intros (x & Heq & Hin). exists x. split; [by apply list_elem_of_In |].
    apply String.eqb_eq. done.
Qed.

Lemma isScrobblerInArray_false s arr :
  isScrobblerInArray s arr = false ↔ getLabel s ∉ labels arr.
Proof.
  rewrite <- isScrobblerInArray_true. destruct (isScrobblerInArray s arr); naive_solver.
Qed.

Lemma isScrobblerInArray_elem s arr :
  s ∈ arr → isScrobblerInArray s arr = true.
Proof.
  intros Hin. apply isScrobblerInArray_true. unfold labels.
  apply list_elem_of_fmap. eauto.
Qed.

Lemma isScrobblerInArray_same_label p q arr :
  getLabel q = getLabel p →
  isScrobblerInArray q arr = isScrobblerInArray p arr.
Proof. intros Heq. unfold isScrobblerInArray. by rewrite Heq. Qed.

Lemma isScrobblerInArray_snoc s arr :
  isScrobblerInArray s (arr ++ [s]) = true.
Proof.
  apply isScrobblerInArray_elem, elem_of_app. right. apply list_elem_of_here.
Qed.

Lemma filter_other_not_elem s arr :
  s ∉ arr → filter (λ x, x ≠ s) arr = arr.
Proof.
  induction arr as [|x arr IH]; [done |].
  intros Hnot. rewrite not_elem_of_cons in Hnot. destruct Hnot as [Hne Hnot].
  rewrite filter_cons_True by done. by rewrite IH.
Qed.

(** Whichever branch [unbindScrobbler] takes, the bound array is filtered
    by reference. *)
Lemma bound_unbindScrobbler s st :
  boundScrobblers (unbindScrobbler s st) =
    filter (λ x, x ≠ s) (boundScrobblers st).
Proof.
  unfold unbindScrobbler.
  destruct (isScrobblerInArray s (boundScrobblers st)) eqn:Hin; simpl; [done |].
  symmetry. apply filter_other_not_elem. intros Hel.
  apply isScrobblerInArray_elem in Hel. congruence.
Qed.

Lemma bound_bindScrobbler s st :
  boundScrobblers (bindScrobbler s st) =
    if isScrobblerInArray s (boundScrobblers st) then boundScrobblers st
    else boundScrobblers st ++ [s].
Proof.
  unfold bindScrobbler. by destruct (isScrobblerInArray s (boundScrobblers st)).
Qed.

Lemma withLabel_length arr l :
  NoDup (labels arr) →
  length (withLabel l arr) = if decide (l ∈ labels arr) then 1 else 0.
Proof.
  unfold withLabel, labels.
  induction arr as [|x arr IH]; simpl; [done |].
  intros Hnd. apply NoDup_cons in Hnd as [Hx Hnd]. specialize (IH Hnd).
  rewrite filter_cons. destruct (decide (getLabel x = l)) as [<- | Hne]; simpl.
  - rewrite IH. rewrite decide_False by done.
    rewrite decide_True by apply list_elem_of_here. done.
  - rewrite IH. destruct (decide (l ∈ getLabel <$> arr)) as [Hin | Hin].
    + rewrite decide_True by (by apply list_elem_of_further). done.
    + rewrite decide_False; [done |].
      intros [Heq | Hin']%elem_of_cons; [by apply Hne | by apply Hin].
Qed.

Lemma labels_filter_NoDup (P : Scrobbler → Prop) `{!∀ x, Decision (P x)} arr :
  NoDup (labels arr) → NoDup (labels (filter P arr)).
Proof.
  unfold labels.
  induction arr as [|x arr IH]; simpl; [done |].
  intros [Hx Hnd]%NoDup_cons. rewrite filter_cons.
  destruct (decide (P x)); simpl; [| by apply IH].
  apply NoDup_cons. split; [| by apply IH].
  intros (y & Heq & Hy)%list_elem_of_fmap.
  apply list_elem_of_filter in Hy as [_ Hy].
  apply Hx, list_elem_of_fmap. eauto.
Qed.

Lemma labels_snoc_NoDup s arr :
  NoDup (labels arr) → isScrobblerInArray s arr = false →
  NoDup (labels (arr ++ [s])).
Proof.
  unfold labels. intros Hnd Hnot. apply isScrobblerInArray_false in Hnot.
  rewrite fmap_app. apply NoDup_app. split; [done |]. split.
  - intros x Hx Hx'. simpl in Hx'. apply list_elem_of_singleton in Hx'. by subst.
  - simpl. apply NoDup_singleton.
Qed.

End Membership.

(** ** The arrays never hold a label twice *)

Section Invariant.
Context `{Scrobblers}.
Implicit Types (s : Scrobbler) (st : State) (rt : Runtime) (j : Job).

Lemma registerScrobbler_bound s st :
  boundScrobblers (registerScrobbler s st) = boundScrobblers st.
Proof.
  unfold registerScrobbler.
  by destruct (isScrobblerInArray s (registeredScrobblers st)).
Qed.

Lemma registerScrobbler_registered s st :
  registeredScrobblers (registerScrobbler s st) =
    if isScrobblerInArray s (registeredScrobblers st) then registeredScrobblers st
    else registeredScrobblers st ++ [s].
Proof.
  unfold registerScrobbler.
  by destruct (isScrobblerInArray s (registeredScrobblers st)).
Qed.

Lemma bindScrobbler_registered s st :
  registeredScrobblers (bindScrobbler s st) = registeredScrobblers st.
Proof.
  unfold bindScrobbler. by destruct (isScrobblerInArray s (boundScrobblers st)).
Qed.

Lemma unbindScrobbler_registered s st :
  registeredScrobblers (unbindScrobbler s st) = registeredScrobblers st.
Proof.
  unfold unbindScrobbler. by destruct (isScrobblerInArray s (boundScrobblers st)).
Qed.

Lemma registerScrobbler_labelsUnique s st :
  labelsUnique st → labelsUnique (registerScrobbler s st).
Proof.
  intros [Hb Hr]. split.
  - by rewrite registerScrobbler_bound.
  - rewrite registerScrobbler_registered.
    destruct (isScrobblerInArray s (registeredScrobblers st)) eqn:Hin; [done |].
    by apply labels_snoc_NoDup.
Qed.

Lemma bindScrobbler_labelsUnique s st :
  labelsUnique st → labelsUnique (bindScrobbler s st).
Proof.
  intros [Hb Hr]. split.
  - rewrite bound_bindScrobbler.
    destruct (isScrobblerInArray s (boundScrobblers st)) eqn:Hin; [done |].
    by apply labels_snoc_NoDup.
  - by rewrite bindScrobbler_registered.
Qed.

Lemma unbindScrobbler_labelsUnique s st :
  labelsUnique st → labelsUnique (unbindScrobbler s st).
Proof.
  intros [Hb Hr]. split.
  - rewrite bound_unbindScrobbler. by apply labels_filter_NoDup.
  - by rewrite unbindScrobbler_registered.
Qed.

Lemma handler_labelsUnique j s st :
  labelsUnique st → labelsUnique (handler j s st).1.
Proof.
  intros Hst. destruct j as [| label notify_ | req]; simpl.
  - unfold onSession. destruct (getSession s); simpl; [| done].
    by apply bindScrobbler_labelsUnique.
  - unfold onAuthUrl. destruct (getAuthUrl s); simpl; [| done].
    pose proof (bindScrobbler_labelsUnique s st Hst) as Hb.
    by destruct notify_.
  - unfold onSubmit. destruct (request s req) as [v | r]; simpl; [done |].
    destruct (isAuthError r); [| done].
    by apply unbindScrobbler_labelsUnique.
Qed.

Lemma handler_registered j s st :
  registeredScrobblers (handler j s st).1 = registeredScrobblers st.
Proof.
  destruct j as [| label notify_ | req]; simpl.
  - unfold onSession. destruct (getSession s); simpl; [| done].
    apply bindScrobbler_registered.
  - unfold onAuthUrl. destruct (getAuthUrl s); simpl; [| done].
    destruct notify_; simpl; apply bindScrobbler_registered.
  - unfold onSubmit. destruct (request s req) as [v | r]; simpl; [done |].
    destruct (isAuthError r); [| done].
    apply unbindScrobbler_registered.
Qed.

Lemma settle_fst (t : Task) i st :
  (settle t i st).1 = st ∨
  ∃ s, targets t !! i = Some s ∧ slots t !! i = Some None ∧
       (settle t i st).1 = (handler (job t) s st).1.
Proof.
  unfold settle.
  destruct (targets t !! i) as [s |]; [| by left].
  destruct (slots t !! i) as [[v |] |]; [by left | | by left].
  right. exists s. by destruct (handler (job t) s st).
Qed.

Lemma invokeAll_boundScrobblers m ts st :
  boundScrobblers (invokeAll m ts st) = boundScrobblers st.
Proof.
  unfold invokeAll. revert st. induction ts as [|x ts IH]; intros st; simpl; [done |].
  by rewrite IH.
Qed.

Lemma invokeAll_registeredScrobblers m ts st :
  registeredScrobblers (invokeAll m ts st) = registeredScrobblers st.
Proof.
  unfold invokeAll. revert st. induction ts as [|x ts IH]; intros st; simpl; [done |].
  by rewrite IH.
Qed.

Lemma registerAll_labelsUnique us st :
  labelsUnique st → labelsUnique (foldl registerAndAsk st us).
Proof.
  revert st. induction us as [|x us IH]; intros st Hst; simpl; [done |].
  apply IH. unfold registerAndAsk.
  by apply (registerScrobbler_labelsUnique x) in Hst.
Qed.

Lemma step_service_settle rt tid i :
  service (step rt (Settle tid i)) =
    match pending rt !! tid with
    | Some t => (settle t i (service rt)).1
    | None => service rt
    end.
Proof.
  simpl. destruct (pending rt !! tid) as [t |]; [| done].
  by destruct (settle t i (service rt)).
Qed.

Lemma step_labelsUnique rt ev :
  labelsUnique (service rt) → labelsUnique (service (step rt ev)).
Proof.
  intros Hst. destruct ev as [us | s | s | s n | song | song | song flag | tid i].
  - simpl. by apply registerAll_labelsUnique.
  - simpl. by apply bindScrobbler_labelsUnique.
  - simpl. by apply unbindScrobbler_labelsUnique.
  - done.
  - destruct Hst as [Hb Hr]. split; simpl.
    + by rewrite invokeAll_boundScrobblers.
    + by rewrite invokeAll_registeredScrobblers.
  - destruct Hst as [Hb Hr]. split; simpl.
    + by rewrite invokeAll_boundScrobblers.
    + by rewrite invokeAll_registeredScrobblers.
  - destruct Hst as [Hb Hr]. split; simpl.
    + by rewrite invokeAll_boundScrobblers.
    + by rewrite invokeAll_registeredScrobblers.
  - rewrite step_service_settle. destruct (pending rt !! tid) as [t |]; [| done].
    destruct (settle_fst t i (service rt)) as [-> | (s & _ & _ & ->)]; [done |].
    by apply handler_labelsUnique.
Qed.

Lemma run_labelsUnique rt evs :
  labelsUnique (service rt) → labelsUnique (service (run rt evs)).
Proof.
  unfold run. revert rt. induction evs as [|ev evs IH]; intros rt Hst; simpl; [done |].
  by apply IH, step_labelsUnique.
Qed.

(** Every state the service can reach keeps the labels of both arrays
    distinct. *)
Lemma reachable_labelsUnique evs :
  labelsUnique (service (run initialRuntime evs)).
Proof. apply run_labelsUnique. split; apply NoDup_nil_2. Qed.

End Invariant.

(** ** Registration *)

Section Registration.
Context `{Scrobblers}.
Implicit Types (s : Scrobbler) (st : State) (rt : Runtime) (l : string).

Lemma registerScrobbler_labels s st l :
  l ∈ labels (registeredScrobblers (registerScrobbler s st)) ↔
  l ∈ labels (registeredScrobblers st) ∨ l = getLabel s.
Proof.
  rewrite registerScrobbler_registered.
  destruct (isScrobblerInArray s (registeredScrobblers st)) eqn:Hin.
  - apply isScrobblerInArray_true in Hin. split; [by left |].
    intros [Hl | ->]; done.
  - unfold labels. rewrite fmap_app, elem_of_app. simpl.
    by rewrite list_elem_of_singleton.
Qed.

Lemma registerAll_labels us st l :
  l ∈ labels (registeredScrobblers (foldl registerAndAsk st us)) ↔
  l ∈ labels (registeredScrobblers st) ∨ l ∈ labels us.
Proof.
  revert st. induction us as [|x us IH]; intros st; simpl.
  - split; [by left |]. intros [Hl | Hl]; [done |]. by apply not_elem_of_nil in Hl.
  - rewrite IH.
    change (registeredScrobblers (registerAndAsk st x))
      with (registeredScrobblers (registerScrobbler x st)).
    rewrite registerScrobbler_labels.
    change (labels (x :: us)) with (getLabel x :: labels us).
    rewrite elem_of_cons. tauto.
Qed.

Lemma step_registered rt ev :
  registeredScrobblers (service (step rt ev)) =
    match ev with
    | CallRegisterScrobblers us =>
        registeredScrobblers (foldl registerAndAsk (service rt) us)
    | _ => registeredScrobblers (service rt)
    end.
Proof.
  destruct ev as [us | s | s | s n | song | song | song flag | tid i]; simpl;
    try done.
  - apply bindScrobbler_registered.
  - apply unbindScrobbler_registered.
  - by rewrite invokeAll_registeredScrobblers.
  - by rewrite invokeAll_registeredScrobblers.
  - by rewrite invokeAll_registeredScrobblers.
  - change (registeredScrobblers (service (step rt (Settle tid i))) =
            registeredScrobblers (service rt)).
    rewrite step_service_settle. destruct (pending rt !! tid) as [t |]; [| done].
    destruct (settle_fst t i (service rt)) as [-> | (s & _ & _ & ->)]; [done |].
    apply handler_registered.
Qed.

Lemma run_registered_labels rt evs l :
  l ∈ labels (registeredScrobblers (service (run rt evs))) ↔
  l ∈ labels (registeredScrobblers (service rt)) ∨
  l ∈ labels (registrationInputs evs).
Proof.
  unfold run. revert rt. induction evs as [|ev evs IH]; intros rt; simpl.
  - split; [by left |]. intros [Hl | Hl]; [done |]. by apply not_elem_of_nil in Hl.
  - rewrite IH, step_registered. destruct ev; try done.
    rewrite registerAll_labels.
    replace (labels (unboundScrobblers ++ registrationInputs evs))
      with (labels unboundScrobblers ++ labels (registrationInputs evs))
      by (symmetry; apply fmap_app).
    rewrite elem_of_app. tauto.
Qed.

(** C3.  After any sequence of calls and settled promises, starting from
    the empty service, the registered array holds exactly one entry for
    each label that occurs among the scrobblers ever handed to
    [registerScrobblers], and none for any other label; distinct handles
    sharing a label and labels registered earlier make no difference.
    A scrobbler whose label is already registered is skipped: registering
    it changes nothing, otherwise it is appended. *)
Theorem registerScrobblers_one_entry_per_label (evs : list Event) :
  (∀ l, length (withLabel l (registeredScrobblers (service (run initialRuntime evs))))
        = if decide (l ∈ labels (registrationInputs evs)) then 1 else 0)
  ∧ (∀ s st, if isScrobblerInArray s (registeredScrobblers st)
             then registerScrobbler s st = st
             else registeredScrobblers (registerScrobbler s st)
                  = registeredScrobblers st ++ [s]).
Proof.
  split.
  - intros l. rewrite withLabel_length by apply reachable_labelsUnique.
    destruct (decide (l ∈ labels (registrationInputs evs))) as [Hin | Hin].
    + rewrite decide_True; [done |]. apply run_registered_labels. by right.
    + rewrite decide_False; [done |].
      intros [Hl | Hl]%run_registered_labels; [| done].
      by apply not_elem_of_nil in Hl.
  - intros s st. pose proof (registerScrobbler_registered s st) as Hr.
    unfold registerScrobbler in *.
    by destruct (isScrobblerInArray s (registeredScrobblers st)).
Qed.

End Registration.

(** ** Binding and unbinding *)

Section Binding.
Context `{Scrobblers}.
Implicit Types (s p q : Scrobbler) (st : State) (rt : Runtime).

(** C5.  Binding is idempotent by label.  In a bound array without
    repeated labels, after [bindScrobbler p] a further [bindScrobbler] of
    [p], or of any handle [q] with the label of [p], returns the state
    as it is (nothing is written, nothing fails), and the bound array
    holds exactly one entry with that label. *)
Theorem bindScrobbler_idempotent st p q :
  NoDup (labels (boundScrobblers st)) →
  getLabel q = getLabel p →
  bindScrobbler q (bindScrobbler p st) = bindScrobbler p st
  ∧ bindScrobbler p (bindScrobbler p st) = bindScrobbler p st
  ∧ length (withLabel (getLabel p) (boundScrobblers (bindScrobbler p st))) = 1.
Proof.
  intros Hnd Heq.
  assert (isScrobblerInArray p (boundScrobblers (bindScrobbler p st)) = true) as Hp.
  { rewrite bound_bindScrobbler.
    destruct (isScrobblerInArray p (boundScrobblers st)) eqn:Hin; [done |].
    apply isScrobblerInArray_snoc. }
  split; [| split].
  - unfold bindScrobbler at 1.
    by rewrite (isScrobblerInArray_same_label p q), Hp.
  - unfold bindScrobbler at 1. by rewrite Hp.
  - rewrite withLabel_length.
    + rewrite decide_True; [done |]. by apply isScrobblerInArray_true.
    + rewrite bound_bindScrobbler.
      destruct (isScrobblerInArray p (boundScrobblers st)) eqn:Hin; [done |].
      by apply labels_snoc_NoDup.
Qed.

(** A handle that is stored in the bound array is found by the label check
    and removed by the reference filter. *)
Lemma unbindScrobbler_stored_reference s st :
  s ∈ boundScrobblers st →
  unbindScrobbler s st =
    consoleWrite (LogUnbind (getLabel s))
      (setBound (filter (λ x, x ≠ s) (boundScrobblers st)) st)
  ∧ s ∉ boundScrobblers (unbindScrobbler s st).
Proof.
  intros Hin. split.
  - unfold unbindScrobbler. by rewrite isScrobblerInArray_elem.
  - rewrite bound_unbindScrobbler. intros [Hne _]%list_elem_of_filter. done.
Qed.

(** Another handle with the label of a stored one removes nothing, while
    the label check answers that it is bound. *)
Lemma unbindScrobbler_other_handle s q st :
  s ∈ boundScrobblers st → q ≠ s → getLabel q = getLabel s →
  isScrobblerInArray q (boundScrobblers st) = true
  ∧ s ∈ boundScrobblers (unbindScrobbler q st).
Proof.
  intros Hin Hne Heq. split.
  - rewrite (isScrobblerInArray_same_label s q) by done.
    by apply isScrobblerInArray_elem.
  - rewrite bound_unbindScrobbler. apply list_elem_of_filter. split; [| done].
    congruence.
Qed.

(** C6.  Unbinding a scrobbler whose label is not in the bound array
    writes one error line to the console and changes nothing else: the
    bound array is the same, the call returns, and the pending work of the
    event loop is untouched. *)
Theorem unbindScrobbler_not_bound rt p :
  getLabel p ∉ labels (boundScrobblers (service rt)) →
  step rt (CallUnbindScrobbler p) =
    {| service := consoleWrite (ErrorNotBound (getLabel p)) (service rt);
       pending := pending rt |}
  ∧ boundScrobblers (service (step rt (CallUnbindScrobbler p)))
    = boundScrobblers (service rt).
Proof.
  intros Hnot. apply isScrobblerInArray_false in Hnot.
  simpl. unfold unbindScrobbler. by rewrite Hnot.
Qed.

End Binding.

(** C2.  The bound array holds object 1, labelled Last.fm; object 4 is
    another handle with the same label.  [unbindScrobbler] finds the label,
    takes the branch that unbinds and logs the unbinding, yet the array
    still holds object 1: the filter compares references. *)
Theorem unbindScrobbler_same_label_other_handle :
  getLabel (Scrobblers := demo) 4 = getLabel (Scrobblers := demo) 1
  ∧ isScrobblerInArray (H := demo) 4 [1] = true
  ∧ boundScrobblers (unbindScrobbler (H := demo) 4 (demoState [1])) = [1]
  ∧ console (unbindScrobbler (H := demo) 4 (demoState [1]))
    = [LogUnbind "Last.fm"].
Proof. repeat split. Qed.

(** ** A broadcast under arbitrary interleaving *)

Section Snapshot.
Context `{Scrobblers}.
Implicit Types (s : Scrobbler) (st : State) (rt : Runtime) (t : Task)
  (req : Request) (B : list Scrobbler).

Lemma onSubmit_snd req s st : (onSubmit req s st).2 = entry req s.
Proof. unfold onSubmit, entry. by destruct (request s req). Qed.

Lemma onSubmit_eq req s st :
  onSubmit req s st =
    (if authFails req s then unbindScrobbler s st else st, entry req s).
Proof. unfold onSubmit, entry, authFails. by destruct (request s req). Qed.

Lemma settle_tracks req B t i st :
  tracks req B t → tracks req B (settle t i st).2.
Proof.
  intros (Hjob & Htg & Hlen & Hslots). unfold settle.
  destruct (targets t !! i) as [s |] eqn:Hs; [| done].
  destruct (slots t !! i) as [[v |] |] eqn:Hi; [done | | done].
  pose proof (onSubmit_snd req s st) as Hv.
  rewrite Hjob. simpl. destruct (onSubmit req s st) as [st' v]. simpl in *.
  repeat split; simpl; [done .. | by rewrite length_insert |].
  intros k w Hk. destruct (decide (i = k)) as [<- | Hne].
  - rewrite list_lookup_insert_eq in Hk by (by eapply lookup_lt_Some).
    exists s. split; congruence.
  - rewrite list_lookup_insert_ne in Hk by done. by apply Hslots.
Qed.

Lemma settle_filled_mono t i j st :
  filled t i → filled (settle t j st).2 i.
Proof.
  intros [v Hv]. unfold settle.
  destruct (targets t !! j) as [s |] eqn:Hs; [| by exists v].
  destruct (slots t !! j) as [[w |] |] eqn:Hj; [by exists v | | by exists v].
  destruct (handler (job t) s st) as [st' w]. simpl.
  exists v. simpl. rewrite list_lookup_insert_ne; [done |]. congruence.
Qed.

Lemma settle_fills req B t i st :
  tracks req B t → i < length B → filled (settle t i st).2 i.
Proof.
  intros (Hjob & Htg & Hlen & Hslots) Hi. unfold settle.
  destruct (lookup_lt_is_Some_2 (targets t) i) as [s Hs]; [by rewrite Htg |].
  destruct (lookup_lt_is_Some_2 (slots t) i) as [o Ho]; [by rewrite Hlen |].
  rewrite Hs, Ho. destruct o as [v |]; [by exists v |].
  destruct (handler (job t) s st) as [st' w]. simpl.
  exists w. simpl. apply list_lookup_insert_eq. by rewrite Hlen.
Qed.

(** A step leaves a pending task in place; at most it settles one of its
    promises. *)
Lemma step_pending rt ev tid t :
  pending rt !! tid = Some t →
  pending (step rt ev) !! tid = Some t ∨
  ∃ i, ev = Settle tid i ∧
       pending (step rt ev) !! tid = Some (settle t i (service rt)).2.
Proof.
  intros Ht. pose proof (lookup_lt_Some _ _ _ Ht) as Hlt.
  destruct ev as [us | s | s | s n | song | song | song flag | tid' i]; simpl;
    try (left; by rewrite ?lookup_app_l).
  destruct (pending rt !! tid') as [t' |] eqn:Ht'; [| by left].
  destruct (settle t' i (service rt)) as [st' t''] eqn:Hsettle. simpl.
  destruct (decide (tid' = tid)) as [-> | Hne].
  - right. exists i. split; [done |].
    rewrite list_lookup_insert_eq by done.
    rewrite Ht in Ht'. injection Ht' as <-. by rewrite Hsettle.
  - left. by rewrite list_lookup_insert_ne.
Qed.

Lemma run_tracks req B evs : ∀ rt tid t,
  pending rt !! tid = Some t → tracks req B t →
  ∃ t', pending (run rt evs) !! tid = Some t' ∧ tracks req B t' ∧
        (∀ i, filled t i → filled t' i) ∧
        (∀ i, i < length B → Settle tid i ∈ evs → filled t' i).
Proof.
  unfold run. induction evs as [|ev evs IH]; intros rt tid t Ht Htr; simpl.
  - exists t. split; [done |]. split; [done |]. split; [done |].
    intros i _ Hin. by apply not_elem_of_nil in Hin.
  - destruct (step_pending rt ev tid t Ht) as [Hsame | (i & -> & Hset)].
    + destruct (IH _ _ _ Hsame Htr) as (t' & Ht' & Htr' & Hmono & Hall).
      exists t'. split; [done |]. split; [done |]. split; [done |].
      intros i Hi [<- | Hin]%elem_of_cons; [| by apply Hall].
      simpl in Hsame. rewrite Ht in Hsame.
      destruct (settle t i (service rt)) as [st' t''] eqn:Hsettle. simpl in Hsame.
      rewrite list_lookup_insert_eq in Hsame by (by eapply lookup_lt_Some).
      injection Hsame as ->. apply Hmono.
      pose proof (settle_fills req B t i (service rt) Htr Hi) as Hf.
      by rewrite Hsettle in Hf.
    + pose proof (settle_tracks req B t i (service rt) Htr) as Htr1.
      destruct (IH _ _ _ Hset Htr1) as (t' & Ht' & Htr' & Hmono & Hall).
      exists t'. split; [done |]. split; [done |]. split.
      * intros k Hk. by apply Hmono, settle_filled_mono.
      * intros k Hk [Heq | Hin]%elem_of_cons; [| by apply Hall].
        injection Heq as ->. by eapply Hmono, settle_fills.
Qed.

Lemma collect_fmap_Some (vs : list JsValue) :
  collect (Some <$> vs) = Some vs.
Proof. induction vs as [|v vs IH]; csimpl; [done |]. by rewrite IH. Qed.

Lemma tracks_all_filled req B t :
  tracks req B t → (∀ i, i < length B → filled t i) →
  collect (slots t) = Some (entry req <$> B).
Proof.
  intros (Hjob & Htg & Hlen & Hslots) Hall.
  replace (slots t) with (Some <$> (entry req <$> B)); [apply collect_fmap_Some |].
  apply list_eq. intros i. rewrite !list_lookup_fmap.
  destruct (decide (i < length B)) as [Hi | Hi].
  - destruct (Hall i Hi) as [v Hv]. rewrite Hv.
    destruct (Hslots i v Hv) as (s & -> & ->). done.
  - rewrite (lookup_ge_None_2 B) by lia.
    rewrite (lookup_ge_None_2 (slots t)) by lia. done.
Qed.

Lemma broadcast_pending req st rt :
  pending (broadcast req st rt) =
    pending rt ++ [{| job := JobSubmit req; targets := boundScrobblers st;
                      slots := replicate (length (boundScrobblers st)) None |}].
Proof. done. Qed.

Lemma fresh_tracks req B :
  tracks req B {| job := JobSubmit req; targets := B;
                  slots := replicate (length B) None |}.
Proof.
  repeat split; simpl; [apply length_replicate |].
  intros i v Hv. apply lookup_replicate in Hv as [Hv _]. done.
Qed.

(** The three broadcasts of the module are the calls of [broadcastCall]. *)
Lemma step_broadcastCall rt song flag :
  step rt (broadcastCall (NowPlaying song)) = sendNowPlaying song rt
  ∧ step rt (broadcastCall (Scrobble song)) = scrobble song rt
  ∧ step rt (broadcastCall (ToggleLove song flag)) = toggleLove song flag rt.
Proof. done. Qed.

Lemma broadcastCall_pending req rt :
  pending (step rt (broadcastCall req)) =
    pending rt ++ [{| job := JobSubmit req;
                      targets := boundScrobblers (service rt);
                      slots := replicate (length (boundScrobblers (service rt))) None |}].
Proof. by destruct req. Qed.

Lemma invokeAll_invocations m ts st :
  invocations (invokeAll m ts st) = invocations st ++ ((λ s, (s, m)) <$> ts).
Proof.
  unfold invokeAll. revert st.
  induction ts as [|x ts IH]; intros st; simpl; [by rewrite app_nil_r |].
  rewrite IH. simpl. by rewrite <- app_assoc.
Qed.

Lemma broadcastCall_invocations req rt :
  invocations (service (step rt (broadcastCall req))) =
    invocations (service rt) ++
      ((λ s, (s, Submit req)) <$> boundScrobblers (service rt)).
Proof. destruct req; simpl; by rewrite invokeAll_invocations. Qed.

(** Once every promise of a broadcast has settled, whatever else happened
    in between, the call resolves with the entries of the scrobblers that
    were bound when it started, in the order of the array. *)
Lemma broadcast_results rt req evs :
  let B := boundScrobblers (service rt) in
  let tid := length (pending rt) in
  (∀ i, i < length B → Settle tid i ∈ evs) →
  ∃ t, pending (run (step rt (broadcastCall req)) evs) !! tid = Some t
       ∧ targets t = B
       ∧ results (run (step rt (broadcastCall req)) evs) tid
         = Some (entry req <$> B).
Proof.
  intros B tid Hall.
  destruct (run_tracks req B evs (step rt (broadcastCall req)) tid
              {| job := JobSubmit req; targets := B;
                 slots := replicate (length B) None |})
    as (t' & Ht' & Htr' & _ & Hfilled).
  - rewrite broadcastCall_pending. by apply list_lookup_middle.
  - apply fresh_tracks.
  - exists t'. split; [done |]. split; [apply Htr' |].
    unfold results. rewrite Ht'. apply tracks_all_filled; [done |].
    intros i Hi. by apply Hfilled, Hall.
Qed.

End Snapshot.

(** ** A broadcast that runs alone *)

Section Isolated.
Context `{Scrobblers}.
Implicit Types (s : Scrobbler) (st : State) (rt : Runtime) (t : Task)
  (req : Request) (B : list Scrobbler) (sched : list nat).

Lemma filter_not_elem_nil B : filter (λ s, s ∉ @nil Scrobbler) B = B.
Proof.
  induction B as [|x B IH]; [done |].
  rewrite filter_cons_True by apply not_elem_of_nil. by rewrite IH.
Qed.

Lemma filter_not_elem_snoc s gone B :
  filter (λ x, x ≠ s) (filter (λ x, x ∉ gone) B) = filter (λ x, x ∉ gone ++ [s]) B.
Proof.
  rewrite list_filter_filter. apply list_filter_iff. intros x.
  rewrite not_elem_of_app, list_elem_of_singleton. tauto.
Qed.

Lemma afterUnbinds_nil st : afterUnbinds [] st = st.
Proof.
  destruct st. unfold afterUnbinds. simpl.
  by rewrite filter_not_elem_nil, app_nil_r.
Qed.

Lemma slotsAfter_nil req B : slotsAfter req B [] = replicate (length B) None.
Proof.
  apply list_eq. intros i. unfold slotsAfter. rewrite list_lookup_imap.
  destruct (decide (i < length B)) as [Hi | Hi].
  - rewrite lookup_replicate_2 by done.
    destruct (lookup_lt_is_Some_2 B i Hi) as [s ->]. done.
  - rewrite (lookup_ge_None_2 B) by lia.
    symmetry. apply lookup_replicate_None. lia.
Qed.

Lemma slotsAfter_snoc req B sched i s :
  B !! i = Some s →
  <[i := Some (entry req s)]> (slotsAfter req B sched) = slotsAfter req B (sched ++ [i]).
Proof.
  intros Hs. apply list_eq. intros k. unfold slotsAfter.
  destruct (decide (i = k)) as [<- | Hne].
  - rewrite list_lookup_insert_eq
      by (rewrite length_imap; by eapply lookup_lt_Some).
    rewrite list_lookup_imap, Hs. simpl.
    rewrite decide_True; [done |]. apply elem_of_app. right. apply list_elem_of_here.
  - rewrite list_lookup_insert_ne by done. rewrite !list_lookup_imap.
    destruct (B !! k) as [x |]; simpl; [| done].
    destruct (decide (k ∈ sched)) as [Hk | Hk].
    + rewrite decide_True; [done |]. apply elem_of_app. by left.
    + rewrite decide_False; [done |].
      intros [Hk' | Hk']%elem_of_app; [done |].
      apply list_elem_of_singleton in Hk'. congruence.
Qed.

Lemma unboundBy_snoc req B sched i s :
  B !! i = Some s →
  unboundBy req B (sched ++ [i]) =
    unboundBy req B sched ++ (if authFails req s then [s] else []).
Proof.
  intros Hs. unfold unboundBy. rewrite omap_app. f_equal. simpl.
  rewrite Hs. simpl. by destruct (authFails req s).
Qed.

Lemma unboundBy_elem req B sched s :
  s ∈ unboundBy req B sched ↔
  ∃ i, i ∈ sched ∧ B !! i = Some s ∧ authFails req s = true.
Proof.
  unfold unboundBy. rewrite list_elem_of_omap. split.
  - intros (i & Hi & Hs). exists i. split; [done |].
    destruct (B !! i) as [x |]; simpl in Hs; [| done].
    destruct (authFails req x) eqn:Hx; [| done].
    injection Hs as ->. done.
  - intros (i & Hi & Hs & Hx). exists i. split; [done |].
    rewrite Hs. simpl. by rewrite Hx.
Qed.

Lemma afterUnbinds_unbind s gone st :
  s ∈ boundScrobblers st → s ∉ gone →
  unbindScrobbler s (afterUnbinds gone st) = afterUnbinds (gone ++ [s]) st.
Proof.
  intros Hin Hnot. unfold unbindScrobbler.
  rewrite isScrobblerInArray_elem.
  - unfold afterUnbinds, consoleWrite, setBound, labels. simpl.
    rewrite filter_not_elem_snoc, fmap_app, fmap_app, app_assoc. done.
  - simpl. by apply list_elem_of_filter.
Qed.

Lemma broadcastCall_bound req rt :
  boundScrobblers (service (step rt (broadcastCall req))) =
    boundScrobblers (service rt).
Proof. destruct req; simpl; by rewrite invokeAll_boundScrobblers. Qed.

Lemma run_snoc rt evs ev : run rt (evs ++ [ev]) = step (run rt evs) ev.
Proof. unfold run. by rewrite foldl_app. Qed.

(** The promises of a broadcast settle in the order [sched], nothing else
    happens in between, and the bound array held no handle twice: each
    scrobbler that fails authentication is found bound and is unbound. *)
Lemma isolated_run rt req sched :
  let B := boundScrobblers (service rt) in
  let tid := length (pending rt) in
  let rt1 := step rt (broadcastCall req) in
  NoDup B → NoDup sched → (∀ i, i ∈ sched → i < length B) →
  run rt1 (Settle tid <$> sched) =
    {| service := afterUnbinds (unboundBy req B sched) (service rt1);
       pending := pending rt ++
         [{| job := JobSubmit req; targets := B;
             slots := slotsAfter req B sched |}] |}.
Proof.
  intros B tid rt1 HB. induction sched as [|i sched IH] using rev_ind.
  - intros _ _. simpl. unfold unboundBy. simpl.
    rewrite afterUnbinds_nil, slotsAfter_nil.
    unfold rt1. rewrite <- broadcastCall_pending. by destruct (step rt _).
  - intros [Hnd [Hfresh _]]%NoDup_app Hlt.
    assert (i ∉ sched) as Hi.
    { intros Hin. apply (Hfresh i Hin), list_elem_of_here. }
    assert (i < length B) as HiB.
    { apply Hlt, elem_of_app. right. apply list_elem_of_here. }
    destruct (lookup_lt_is_Some_2 B i HiB) as [s Hs].
    rewrite fmap_app. change (Settle tid <$> [i]) with [Settle tid i].
    rewrite run_snoc, IH; [| done |];
      [| intros k Hk; apply Hlt, elem_of_app; by left].
    clear IH. simpl.
    rewrite list_lookup_middle by done.
    unfold settle. simpl. rewrite Hs.
    unfold slotsAfter at 1. rewrite list_lookup_imap, Hs. simpl.
    rewrite decide_False by done.
    rewrite (unboundBy_snoc req B sched i s Hs).
    rewrite <- (slotsAfter_snoc req B sched i s Hs).
    rewrite onSubmit_eq. cbv zeta beta iota.
    rewrite insert_app_r_alt by done. rewrite Nat.sub_diag. simpl.
    destruct (authFails req s); [| by rewrite app_nil_r].
    rewrite afterUnbinds_unbind; [done | |].
    + unfold rt1. rewrite broadcastCall_bound. apply list_elem_of_lookup. eauto.
    + intros (k & Hk & Hks & _)%unboundBy_elem.
      by rewrite (NoDup_lookup B k i s HB Hks Hs) in Hk.
Qed.

End Isolated.

(** ** Every promise settles once, in any order *)

Section Complete.
Context `{Scrobblers}.
Implicit Types (s : Scrobbler) (st : State) (rt : Runtime)
  (req : Request) (B : list Scrobbler) (sched : list nat).

Lemma filter_ext_elem (P Q : Scrobbler → Prop)
    `{!∀ x, Decision (P x), !∀ x, Decision (Q x)} B :
  (∀ x, x ∈ B → (P x ↔ Q x)) → filter P B = filter Q B.
Proof.
  induction B as [|x B IH]; intros Hext; [done |].
  rewrite !filter_cons.
  rewrite IH by (intros y Hy; by apply Hext, list_elem_of_further).
  destruct (decide (P x)) as [HP | HP], (decide (Q x)) as [HQ | HQ];
    try done; exfalso; apply (Hext x (list_elem_of_here x B)) in HP || apply HP;
    try done; by apply (Hext x (list_elem_of_here x B)).
Qed.

Lemma schedule_NoDup sched n : sched ≡ₚ seq 0 n → NoDup sched.
Proof. intros Hp. rewrite Hp. apply NoDup_seq. Qed.

Lemma schedule_elem sched n i : sched ≡ₚ seq 0 n → i ∈ sched ↔ i < n.
Proof. intros Hp. rewrite Hp, elem_of_seq. lia. Qed.

Lemma unboundBy_NoDup req B sched :
  NoDup B → NoDup sched → NoDup (unboundBy req B sched).
Proof.
  intros HB. unfold unboundBy. induction sched as [|i sched IH]; [constructor |].
  intros [Hi Hnd]%NoDup_cons. simpl.
  destruct (B !! i) as [s |] eqn:Hs; simpl; [| by apply IH].
  destruct (authFails req s); [| by apply IH].
  apply NoDup_cons. split; [| by apply IH].
  intros (k & Hk & Hks & _)%unboundBy_elem.
  by rewrite (NoDup_lookup B k i s HB Hks Hs) in Hk.
Qed.

Lemma unboundBy_complete req B sched s :
  sched ≡ₚ seq 0 (length B) →
  s ∈ unboundBy req B sched ↔ s ∈ B ∧ authFails req s = true.
Proof.
  intros Hp. rewrite unboundBy_elem. split.
  - intros (i & _ & Hs & Hx). split; [| done]. apply list_elem_of_lookup. eauto.
  - intros [(i & Hs)%list_elem_of_lookup Hx]. exists i. split; [| done].
    apply (schedule_elem _ _ _ Hp). by eapply lookup_lt_Some.
Qed.

(** A broadcast whose promises all settle, in any order, with nothing
    else in between, on a bound array that holds no handle twice. *)
Lemma isolated_complete rt req sched :
  let B := boundScrobblers (service rt) in
  let tid := length (pending rt) in
  let rt1 := step rt (broadcastCall req) in
  let rt' := run rt1 (Settle tid <$> sched) in
  NoDup B → sched ≡ₚ seq 0 (length B) →
  service rt' = afterUnbinds (unboundBy req B sched) (service rt1)
  ∧ unboundBy req B sched ≡ₚ filter (λ s, authFails req s = true) B
  ∧ boundScrobblers (service rt') = filter (λ s, authFails req s = false) B
  ∧ results rt' tid = Some (entry req <$> B).
Proof.
  intros B tid rt1 rt' HB Hp.
  pose proof (schedule_NoDup _ _ Hp) as Hnd.
  assert (run rt1 (Settle tid <$> sched) =
    {| service := afterUnbinds (unboundBy req B sched) (service rt1);
       pending := pending rt ++
         [{| job := JobSubmit req; targets := B;
             slots := slotsAfter req B sched |}] |}) as Hrun.
  { apply isolated_run; [done | done |]. intros i Hi.
    by apply (schedule_elem _ _ _ Hp). }
  split; [| split; [| split]].
  - unfold rt'. by rewrite Hrun.
  - apply NoDup_Permutation.
    + by apply unboundBy_NoDup.
    + by apply NoDup_filter.
    + intros s. rewrite (unboundBy_complete req B sched s Hp), list_elem_of_filter.
      tauto.
  - unfold rt'. rewrite Hrun. simpl.
    unfold rt1. rewrite broadcastCall_bound. fold B.
    apply filter_ext_elem. intros s Hs.
    rewrite (unboundBy_complete req B sched s Hp).
    destruct (authFails req s); split; try done.
    + intros Hnot. exfalso. by apply Hnot.
    + by intros _ [_ ?].
  - destruct (broadcast_results rt req (Settle tid <$> sched)) as (t & _ & _ & Hres);
      [| done].
    intros i Hi. apply list_elem_of_fmap. exists i. split; [done |].
    by apply (schedule_elem _ _ _ Hp).
Qed.

End Complete.

(** ** Broadcasts *)

Section Broadcasts.
Context `{Scrobblers}.
Implicit Types (s : Scrobbler) (st : State) (rt : Runtime)
  (req : Request) (sched : list nat).

(** C1.  Three distinct scrobblers A, B and C are bound; [scrobble] of B
    rejects with a result whose [isAuthError] is true, those of A and C
    resolve.  Whatever the order in which the three promises settle,
    once [scrobble song] has resolved the bound array is exactly A, C,
    and the call resolved with three entries: the values of A and C and,
    between them, the very result B rejected with. *)
Theorem scrobble_unbinds_on_auth_error rt song A B C vA r vC sched :
  boundScrobblers (service rt) = [A; B; C] →
  NoDup [A; B; C] →
  request A (Scrobble song) = Resolved vA →
  request B (Scrobble song) = Rejected r →
  isAuthError r = true →
  request C (Scrobble song) = Resolved vC →
  sched ≡ₚ [0; 1; 2] →
  let tid := length (pending rt) in
  let rt' := run (scrobble song rt) (Settle tid <$> sched) in
  boundScrobblers (service rt') = [A; C]
  ∧ ∃ rs, results rt' tid = Some rs ∧ length rs = 3
          ∧ rs = [vA; Result r; vC].
Proof.
  intros Hbound Hnd HA HB Hr HC Hsched tid rt'. subst tid rt'.
  pose proof (isolated_complete rt (Scrobble song) sched) as Hiso.
  cbv zeta in Hiso. rewrite Hbound in Hiso.
  destruct Hiso as (_ & _ & Hb & Hres); [done | done |].
  - change (step rt (broadcastCall (Scrobble song))) with (scrobble song rt) in *.
    assert (authFails (Scrobble song) A = false) as HfA
      by (unfold authFails; by rewrite HA).
    assert (authFails (Scrobble song) B = true) as HfB
      by (unfold authFails; by rewrite HB).
    assert (authFails (Scrobble song) C = false) as HfC
      by (unfold authFails; by rewrite HC).
    split.
    + rewrite Hb. rewrite filter_cons_True by done.
      rewrite filter_cons_False by (by rewrite HfB).
      by rewrite filter_cons_True by done.
    + exists [vA; Result r; vC]. split; [| done].
      rewrite Hres. csimpl. unfold entry. by rewrite HA, HB, HC.
Qed.

(** C7.  One scrobbler is bound and its [sendNowPlaying] rejects with a
    result whose [isAuthError] is false.  Once [sendNowPlaying song] has
    resolved, the handler has changed nothing in the state of the
    service, the scrobbler is still bound, and the call resolved with
    that result as its only entry. *)
Theorem sendNowPlaying_keeps_bound_on_other_error rt song s r :
  boundScrobblers (service rt) = [s] →
  request s (NowPlaying song) = Rejected r →
  isAuthError r = false →
  let tid := length (pending rt) in
  let rt' := run (sendNowPlaying song rt) [Settle tid 0] in
  service rt' = service (sendNowPlaying song rt)
  ∧ boundScrobblers (service rt') = [s]
  ∧ results rt' tid = Some [Result r].
Proof.
  intros Hbound Hs Hr tid rt'. subst tid rt'.
  pose proof (isolated_complete rt (NowPlaying song) [0]) as Hiso.
  cbv zeta in Hiso. rewrite Hbound in Hiso.
  destruct Hiso as (Hsrv & _ & Hb & Hres); [apply NoDup_singleton | done |].
  change (step rt (broadcastCall (NowPlaying song)))
    with (sendNowPlaying song rt) in *.
  change (Settle (length (pending rt)) <$> [0])
    with [Settle (length (pending rt)) 0] in *.
  assert (authFails (NowPlaying song) s = false) as Hf
    by (unfold authFails; by rewrite Hs, Hr).
  split; [| split].
  - rewrite Hsrv. unfold unboundBy. simpl.
    rewrite Hf. apply afterUnbinds_nil.
  - rewrite Hb. by rewrite filter_cons_True by done.
  - rewrite Hres. csimpl. unfold entry. by rewrite Hs.
Qed.

(** C4.  The scrobblers a broadcast addresses are those bound when it
    is called.  Each of them is invoked at the call; and when all its
    promises have settled, whatever other calls and handlers ran in
    between (unbinding some of them, for instance), the call resolves
    with as many entries as scrobblers were bound at the call, the
    entry of each of them among these. *)
Theorem broadcast_addresses_bound_at_call rt req evs :
  let B := boundScrobblers (service rt) in
  let tid := length (pending rt) in
  let rt1 := step rt (broadcastCall req) in
  (∀ i, i < length B → Settle tid i ∈ evs) →
  invocations (service rt1) =
    invocations (service rt) ++ ((λ s, (s, Submit req)) <$> B)
  ∧ (∃ t, pending (run rt1 evs) !! tid = Some t ∧ targets t = B)
  ∧ ∃ rs, results (run rt1 evs) tid = Some rs
          ∧ length rs = length B
          ∧ ∀ s, s ∈ B → entry req s ∈ rs.
Proof.
  intros B tid rt1 Hall.
  destruct (broadcast_results rt req evs Hall) as (t & Ht & Htg & Hres).
  split; [apply broadcastCall_invocations |].
  split; [by exists t |].
  exists (entry req <$> B). split; [done |]. split; [apply length_fmap |].
  intros s Hs. apply list_elem_of_fmap. eauto.
Qed.

(** C10.  The array a broadcast resolves with is aligned with the bound
    array as it was at the call: in whatever order the promises settle,
    entry [i] is the outcome of the scrobbler at position [i].  The
    request ranges over [sendNowPlaying], [scrobble] and [toggleLove]. *)
Theorem broadcast_results_aligned rt req sched :
  let B := boundScrobblers (service rt) in
  let tid := length (pending rt) in
  sched ≡ₚ seq 0 (length B) →
  ∃ rs, results (run (step rt (broadcastCall req)) (Settle tid <$> sched)) tid
        = Some rs
        ∧ ∀ i, rs !! i = entry req <$> B !! i.
Proof.
  intros B tid Hp.
  destruct (broadcast_results rt req (Settle tid <$> sched)) as (t & _ & _ & Hres).
  - intros i Hi. apply list_elem_of_fmap. exists i. split; [done |].
    by apply (schedule_elem _ _ _ Hp).
  - exists (entry req <$> B). split; [done |].
    intros i. apply list_lookup_fmap.
Qed.

(** C9, amended.  A broadcast runs alone: its promises settle in some
    order and nothing else happens in between, on a bound array that
    holds no handle twice.  Then every unbinding caused by an
    authentication error finds its scrobbler bound: the console receives
    one unbind line for each scrobbler that failed authentication and no
    other line, in particular no not-bound error, and exactly those
    scrobblers have left the bound array. *)
Theorem broadcast_alone_unbinds_bound_scrobblers rt req sched :
  let B := boundScrobblers (service rt) in
  let tid := length (pending rt) in
  let rt1 := step rt (broadcastCall req) in
  let rt' := run rt1 (Settle tid <$> sched) in
  NoDup B → sched ≡ₚ seq 0 (length B) →
  ∃ gone, gone ≡ₚ filter (λ s, authFails req s = true) B
          ∧ console (service rt') = console (service rt1) ++ (LogUnbind <$> labels gone)
          ∧ boundScrobblers (service rt') = filter (λ s, authFails req s = false) B.
Proof.
  intros B tid rt1 rt' HB Hp.
  destruct (isolated_complete rt req sched HB Hp) as (Hsrv & Hgone & Hb & _).
  exists (unboundBy req B sched). split; [done |]. split; [| done].
  unfold rt', rt1, tid. by rewrite Hsrv.
Qed.

(** C8.  The label of [p] is not bound and [getAuthUrl] of [p] rejects.
    With either value of [notify], once the handler of
    [authenticateScrobbler] has run, the bound array is what it was, so
    [p] is not in it; the notifier was asked exactly once more, for a
    sign-in error with the label and the status URL of [p]; and no tab
    was opened.  The call and the handler return. *)
Theorem authenticateScrobbler_without_auth_url rt p (notify_ : bool) :
  getLabel p ∉ labels (boundScrobblers (service rt)) →
  getAuthUrl p = None →
  let tid := length (pending rt) in
  let rt' := run rt [CallAuthenticateScrobbler p notify_; Settle tid 0] in
  boundScrobblers (service rt') = boundScrobblers (service rt)
  ∧ isScrobblerInArray p (boundScrobblers (service rt')) = false
  ∧ notifications (service rt') =
      notifications (service rt) ++ [ShowSignInError (getLabel p) (getStatusUrl p)]
  ∧ tabs (service rt') = tabs (service rt)
  ∧ results rt' tid = Some [Undefined].
Proof.
  intros Hnot Hurl tid rt'. unfold rt'. simpl.
  rewrite list_lookup_middle by done.
  unfold settle. simpl. unfold onAuthUrl. rewrite Hurl. simpl.
  split; [done |]. split; [by apply isScrobblerInArray_false |].
  split; [done |]. split; [done |].
  unfold results. simpl. rewrite insert_app_r_alt by done.
  rewrite Nat.sub_diag. simpl. by rewrite list_lookup_middle.
Qed.

End Broadcasts.

(** ** The statements at the concrete scrobblers *)

Section Instances.
Ltac decided := by apply (bool_decide_unpack _).

Lemma scrobble_unbinds_on_auth_error_witness :
  let rt' := run (H := demo) (scrobble 5 (demoRuntime [1; 2; 3]))
               (Settle 0 <$> [2; 0; 1]) in
  (NoDup [1; 2; 3] ∧ [2; 0; 1] ≡ₚ [0; 1; 2]
   ∧ isAuthError authFailure = true)
  ∧ boundScrobblers (service rt') = [1; 3]
  ∧ ∃ rs, results rt' 0 = Some rs ∧ length rs = 3
          ∧ rs = [Plain 1; Result authFailure; Plain 3].
Proof.
  intros rt'. split; [split; [decided | split; [decided | done]] |].
  apply (scrobble_unbinds_on_auth_error (H := demo) (demoRuntime [1; 2; 3])
           5 1 2 3 (Plain 1) authFailure (Plain 3) [2; 0; 1]);
    [reflexivity | decided | reflexivity | reflexivity | reflexivity
    | reflexivity | decided].
Defined.

Lemma sendNowPlaying_keeps_bound_on_other_error_witness :
  let rt' := run (H := demo) (sendNowPlaying 5 (demoRuntime [3]))
               [Settle 0 0] in
  (request (Scrobblers := demo) 3 (NowPlaying 5) = Rejected otherFailure
   ∧ isAuthError otherFailure = false)
  ∧ service rt' = service (sendNowPlaying 5 (demoRuntime [3]))
  ∧ boundScrobblers (service rt') = [3]
  ∧ results rt' 0 = Some [Result otherFailure].
Proof.
  intros rt'. split; [done |].
  apply (sendNowPlaying_keeps_bound_on_other_error (H := demo)
           (demoRuntime [3]) 5 3 otherFailure); reflexivity.
Defined.

(** Scrobbler 2 is unbound by its own authentication error and scrobbler
    3 by a call, both while the broadcast is in flight. *)
Lemma broadcast_addresses_bound_at_call_witness :
  let evs := [Settle 0 1; CallUnbindScrobbler 3; Settle 0 2; Settle 0 0] in
  let rt1 := step (H := demo) (demoRuntime [1; 2; 3]) (broadcastCall (Scrobble 5)) in
  boundScrobblers (service (run (H := demo) rt1 evs)) = [1]
  ∧ invocations (service rt1) =
      (λ s, (s, Submit (Scrobble 5))) <$> [1; 2; 3]
  ∧ (∃ t, pending (run (H := demo) rt1 evs) !! 0 = Some t ∧ targets t = [1; 2; 3])
  ∧ ∃ rs, results (run (H := demo) rt1 evs) 0 = Some rs
          ∧ length rs = 3
          ∧ ∀ s, s ∈ [1; 2; 3] → entry (H := demo) (Scrobble 5) s ∈ rs.
Proof.
  intros evs rt1. split; [reflexivity |].
  apply (broadcast_addresses_bound_at_call (H := demo) (demoRuntime [1; 2; 3])
           (Scrobble 5) evs).
  intros i Hi. destruct i as [|[|[|i]]]; [| | | simpl in Hi; lia];
    repeat first [apply list_elem_of_here | apply list_elem_of_further].
Defined.

Lemma broadcast_results_aligned_witness :
  [1; 2; 0] ≡ₚ seq 0 3
  ∧ ∃ rs, results (run (H := demo)
                     (step (H := demo) (demoRuntime [1; 2; 3])
                        (broadcastCall (ToggleLove 5 true)))
                     (Settle 0 <$> [1; 2; 0])) 0 = Some rs
          ∧ ∀ i, rs !! i = entry (H := demo) (ToggleLove 5 true) <$> [1; 2; 3] !! i.
Proof.
  split; [decided |].
  apply (broadcast_results_aligned (H := demo) (demoRuntime [1; 2; 3])
           (ToggleLove 5 true) [1; 2; 0]).
  decided.
Defined.

Lemma broadcast_alone_unbinds_bound_scrobblers_witness :
  let rt1 := step (H := demo) (demoRuntime [1; 2; 3]) (broadcastCall (NowPlaying 5)) in
  let rt' := run (H := demo) rt1 (Settle 0 <$> [2; 1; 0]) in
  (NoDup [1; 2; 3] ∧ [2; 1; 0] ≡ₚ seq 0 3)
  ∧ ∃ gone, gone ≡ₚ filter (λ s, authFails (H := demo) (NowPlaying 5) s = true) [1; 2; 3]
            ∧ console (service rt') =
                console (service rt1) ++ (LogUnbind <$> labels (H := demo) gone)
            ∧ boundScrobblers (service rt') =
                filter (λ s, authFails (H := demo) (NowPlaying 5) s = false) [1; 2; 3].
Proof.
  intros rt1 rt'. split; [split; decided |].
  apply (broadcast_alone_unbinds_bound_scrobblers (H := demo)
           (demoRuntime [1; 2; 3]) (NowPlaying 5) [2; 1; 0]); decided.
Defined.

Lemma authenticateScrobbler_without_auth_url_witness :
  let rt' := run (H := demo) (demoRuntime [1])
               [CallAuthenticateScrobbler 2 true; Settle 0 0] in
  ((getLabel (Scrobblers := demo) 2 ∉ labels (H := demo) [1])
   ∧ getAuthUrl (Scrobblers := demo) 2 = None)
  ∧ boundScrobblers (service rt') = [1]
  ∧ isScrobblerInArray (H := demo) 2 (boundScrobblers (service rt')) = false
  ∧ notifications (service rt') =
      [ShowSignInError "Libre.fm" "http://status/Libre.fm"]
  ∧ tabs (service rt') = []
  ∧ results rt' 0 = Some [Undefined].
Proof.
  intros rt'. split; [split; [decided | reflexivity] |].
  apply (authenticateScrobbler_without_auth_url (H := demo) (demoRuntime [1]) 2 true);
    [decided | reflexivity].
Defined.

Lemma bindScrobbler_idempotent_witness :
  let st1 := bindScrobbler (H := demo) 1 (demoState [2; 3]) in
  (NoDup (labels (H := demo) [2; 3])
   ∧ getLabel (Scrobblers := demo) 4 = getLabel (Scrobblers := demo) 1)
  ∧ bindScrobbler (H := demo) 4 st1 = st1
  ∧ bindScrobbler (H := demo) 1 st1 = st1
  ∧ length (withLabel (H := demo) "Last.fm" (boundScrobblers st1)) = 1.
Proof.
  intros st1. split; [split; [decided | reflexivity] |].
  apply (bindScrobbler_idempotent (H := demo) (demoState [2; 3]) 1 4);
    [decided | reflexivity].
Defined.

Lemma unbindScrobbler_not_bound_witness :
  let rt := demoRuntime [1; 3] in
  (getLabel (Scrobblers := demo) 2 ∉ labels (H := demo) [1; 3])
  ∧ step (H := demo) rt (CallUnbindScrobbler 2) =
      {| service := consoleWrite (ErrorNotBound "Libre.fm") (service rt);
         pending := pending rt |}
  ∧ boundScrobblers (service (step (H := demo) rt (CallUnbindScrobbler 2))) = [1; 3].
Proof.
  intros rt. split; [decided |].
  apply (unbindScrobbler_not_bound (H := demo) rt 2). decided.
Defined.

(** C9, as stated, fails.  Scrobbler 2 is the only bound scrobbler and has
    lost its session.  [sendNowPlaying] and [scrobble] are called one
    after the other, then their promises settle.  The handler of the
    first broadcast unbinds scrobbler 2; the handler of the second
    passes the same stored reference to [unbindScrobbler], which now
    takes the not-bound branch and writes the error. *)
Lemma overlapping_broadcasts_reach_not_bound :
  let evs := [CallSendNowPlaying 5; CallScrobble 5; Settle 0 0; Settle 1 0] in
  let rt' := run (H := demo) (demoRuntime [2]) evs in
  labelsUnique (H := demo) (demoState [2])
  ∧ console (service rt') =
      [LogSendNowPlaying 1; LogSendScrobble 1;
       LogUnbind "Libre.fm"; ErrorNotBound "Libre.fm"]
  ∧ results rt' 1 = Some [Result authFailure].
Proof.
  intros evs rt'. split; [split; decided |]. split; reflexivity.
Qed.

End Instances.

(** ** The registered array and the lookup by label *)

Section Lookup.
Context `{Scrobblers}.
Implicit Types (s : Scrobbler) (st : State) (rt : Runtime) (l : string)
  (arr : list Scrobbler).

Lemma findByLabel_Some l arr s :
  findByLabel l arr = Some s → s ∈ arr ∧ getLabel s = l.
Proof.
  induction arr as [|x arr IH]; simpl; [done |].
  destruct (String.eqb (getLabel x) l) eqn:Hx.
  - intros [= <-]. split; [apply list_elem_of_here | by apply String.eqb_eq].
  - intros [Hin Hl]%IH. split; [by apply list_elem_of_further | done].
Qed.

Lemma findByLabel_None l arr :
  findByLabel l arr = None ↔ l ∉ labels arr.
Proof.
  unfold labels. induction arr as [|x arr IH]; simpl.
  - split; [intros _; apply not_elem_of_nil | done].
  - rewrite not_elem_of_cons, <- IH.
    destruct (String.eqb (getLabel x) l) eqn:Hx.
    + apply String.eqb_eq in Hx. split; [done | intros [Hne _]; congruence].
    + apply String.eqb_neq in Hx. split; [intros Hn; split; congruence | tauto].
Qed.

Lemma findByLabel_app l arr1 arr2 :
  findByLabel l (arr1 ++ arr2) =
    match findByLabel l arr1 with
    | Some s => Some s
    | None => findByLabel l arr2
    end.
Proof.
  induction arr1 as [|x arr1 IH]; simpl; [done |].
  by destruct (String.eqb (getLabel x) l).
Qed.

Lemma findByLabel_keepFirst l seen arr :
  l ∉ seen → findByLabel l (keepFirst seen arr) = findByLabel l arr.
Proof.
  revert seen. induction arr as [|x arr IH]; intros seen Hl; simpl; [done |].
  destruct (decide (getLabel x ∈ seen)) as [Hin | Hin]; simpl.
  - rewrite IH by done.
    destruct (String.eqb (getLabel x) l) eqn:Hx; [| done].
    apply String.eqb_eq in Hx. congruence.
  - destruct (String.eqb (getLabel x) l) eqn:Hx; [done |].
    apply String.eqb_neq in Hx. apply IH.
    rewrite not_elem_of_app, list_elem_of_singleton. split; congruence.
Qed.

Lemma keepFirst_app seen arr1 arr2 :
  keepFirst seen (arr1 ++ arr2) =
    keepFirst seen arr1 ++ keepFirst (seen ++ labels (keepFirst seen arr1)) arr2.
Proof.
  revert seen. induction arr1 as [|x arr1 IH]; intros seen; simpl.
  - by rewrite app_nil_r.
  - destruct (decide (getLabel x ∈ seen)) as [Hin | Hin]; [apply IH |].
    rewrite IH. simpl. f_equal.
    change (labels (x :: keepFirst (seen ++ [getLabel x]) arr1))
      with (getLabel x :: labels (keepFirst (seen ++ [getLabel x]) arr1)).
    by rewrite <- app_assoc.
Qed.

Lemma registerAll_registered us st :
  registeredScrobblers (foldl registerAndAsk st us) =
    registeredScrobblers st ++ keepFirst (labels (registeredScrobblers st)) us.
Proof.
  revert st. induction us as [|x us IH]; intros st; simpl.
  - by rewrite app_nil_r.
  - rewrite IH.
    change (registeredScrobblers (registerAndAsk st x))
      with (registeredScrobblers (registerScrobbler x st)).
    rewrite registerScrobbler_registered.
    destruct (isScrobblerInArray x (registeredScrobblers st)) eqn:Hin.
    + apply isScrobblerInArray_true in Hin. by rewrite decide_True.
    + apply isScrobblerInArray_false in Hin. rewrite decide_False by done.
      unfold labels at 1. rewrite fmap_app, <- app_assoc. done.
Qed.

Lemma run_registered rt evs :
  registeredScrobblers (service (run rt evs)) =
    registeredScrobblers (service rt) ++
      keepFirst (labels (registeredScrobblers (service rt))) (registrationInputs evs).
Proof.
  unfold run. revert rt. induction evs as [|ev evs IH]; intros rt; simpl.
  - by rewrite app_nil_r.
  - rewrite IH, step_registered. destruct ev; try done.
    rewrite registerAll_registered, keepFirst_app, <- app_assoc.
    unfold labels at 2. by rewrite fmap_app.
Qed.

(** X1.  In every state the service reaches from its initial state, no two
    entries of the bound array and no two entries of the registered array
    share a label; in particular neither array holds an object twice. *)
Theorem reachable_arrays_hold_each_label_once (evs : list Event) :
  let st := service (run initialRuntime evs) in
  NoDup (labels (boundScrobblers st)) ∧ NoDup (labels (registeredScrobblers st))
  ∧ NoDup (boundScrobblers st) ∧ NoDup (registeredScrobblers st).
Proof.
  intros st. destruct (reachable_labelsUnique evs) as [Hb Hr].
  repeat split; [done | done | |]; by eapply NoDup_fmap_1.
Qed.

(** X2.  Nothing unregisters: whatever calls are made and promises settle,
    the registered array keeps its entries in place and only grows at its
    end. *)
Theorem registered_only_grows rt (evs : list Event) :
  registeredScrobblers (service rt) `prefix_of`
    registeredScrobblers (service (run rt evs)).
Proof. rewrite run_registered. by eexists. Qed.

(** X3.  [getScrobblerByLabel] answers with a registered scrobbler that
    carries the label, and with null exactly when no registered scrobbler
    carries it. *)
Theorem getScrobblerByLabel_found_or_absent st l :
  match getScrobblerByLabel l st with
  | Some s => s ∈ getRegisteredScrobblers st ∧ getLabel s = l
  | None => l ∉ labels (getRegisteredScrobblers st)
  end.
Proof.
  unfold getScrobblerByLabel, getRegisteredScrobblers.
  destruct (findByLabel l (registeredScrobblers st)) as [s |] eqn:Hf.
  - by apply findByLabel_Some.
  - by apply findByLabel_None.
Qed.

(** X4.  After any sequence of calls from the initial state, the lookup of
    a label gives the first scrobbler with that label that was ever handed
    to [registerScrobblers], and null if there was none: a later handle
    with the same label never replaces it. *)
Theorem getScrobblerByLabel_first_registered (evs : list Event) l :
  getScrobblerByLabel l (service (run initialRuntime evs)) =
    findByLabel l (registrationInputs evs).
Proof.
  unfold getScrobblerByLabel. rewrite run_registered. simpl.
  apply findByLabel_keepFirst, not_elem_of_nil.
Qed.

(** X5.  [getRegisteredScrobblers] lists the scrobblers in the order in
    which their labels were first handed to [registerScrobblers], one per
    label, across all calls. *)
Theorem getRegisteredScrobblers_in_order_of_registration (evs : list Event) :
  getRegisteredScrobblers (service (run initialRuntime evs)) =
    keepFirst [] (registrationInputs evs).
Proof. unfold getRegisteredScrobblers. by rewrite run_registered. Qed.

End Lookup.

(** ** A fan-out that runs alone, for any kind of task *)

Section FanOut.
Context `{Scrobblers}.
Implicit Types (s : Scrobbler) (st : State) (rt : Runtime) (j : Job)
  (ts us : list Scrobbler) (sched : list nat) (l : string).

Lemma handler_snd j s st : (handler j s st).2 = handlerValue j s.
Proof.
  destruct j as [| label notify_ | req]; simpl.
  - unfold onSession. by destruct (getSession s).
  - unfold onAuthUrl. by destruct (getAuthUrl s).
  - apply onSubmit_snd.
Qed.

Lemma slotsOf_nil j ts : slotsOf j ts [] = replicate (length ts) None.
Proof.
  apply list_eq. intros i. unfold slotsOf. rewrite list_lookup_imap.
  destruct (decide (i < length ts)) as [Hi | Hi].
  - rewrite lookup_replicate_2 by done.
    destruct (lookup_lt_is_Some_2 ts i Hi) as [s ->]. done.
  - rewrite (lookup_ge_None_2 ts) by lia.
    symmetry. apply lookup_replicate_None. lia.
Qed.

Lemma slotsOf_snoc j ts sched i s :
  ts !! i = Some s →
  <[i := Some (handlerValue j s)]> (slotsOf j ts sched) = slotsOf j ts (sched ++ [i]).
Proof.
  intros Hs. apply list_eq. intros k. unfold slotsOf.
  destruct (decide (i = k)) as [<- | Hne].
  - rewrite list_lookup_insert_eq
      by (rewrite length_imap; by eapply lookup_lt_Some).
    rewrite list_lookup_imap, Hs. simpl.
    rewrite decide_True; [done |]. apply elem_of_app. right. apply list_elem_of_here.
  - rewrite list_lookup_insert_ne by done. rewrite !list_lookup_imap.
    destruct (ts !! k) as [x |]; simpl; [| done].
    destruct (decide (k ∈ sched)) as [Hk | Hk].
    + rewrite decide_True; [done |]. apply elem_of_app. by left.
    + rewrite decide_False; [done |].
      intros [Hk' | Hk']%elem_of_app; [done |].
      apply list_elem_of_singleton in Hk'. congruence.
Qed.

Lemma slotsOf_complete j ts sched :
  sched ≡ₚ seq 0 (length ts) →
  collect (slotsOf j ts sched) = Some (handlerValue j <$> ts).
Proof.
  intros Hp.
  replace (slotsOf j ts sched) with (Some <$> (handlerValue j <$> ts));
    [apply collect_fmap_Some |].
  apply list_eq. intros i. unfold slotsOf.
  rewrite !list_lookup_fmap, list_lookup_imap.
  destruct (ts !! i) as [s |] eqn:Hs; simpl; [| done].
  rewrite decide_True; [done |].
  apply (schedule_elem _ _ _ Hp). by eapply lookup_lt_Some.
Qed.

Lemma settleAll_snoc j ts sched i st :
  settleAll j ts (sched ++ [i]) st =
    match ts !! i with
    | Some s => (handler j s (settleAll j ts sched st)).1
    | None => settleAll j ts sched st
    end.
Proof. unfold settleAll. by rewrite foldl_app. Qed.

(** The promises of a freshly spawned task settle in the order [sched],
    each once, and nothing else happens in between. *)
Lemma spawned_run j ts st rt sched :
  NoDup sched → (∀ i, i ∈ sched → i < length ts) →
  run (spawn j ts st rt) (Settle (length (pending rt)) <$> sched) =
    {| service := settleAll j ts sched st;
       pending := pending rt ++
         [{| job := j; targets := ts; slots := slotsOf j ts sched |}] |}.
Proof.
  induction sched as [|i sched IH] using rev_ind.
  - intros _ _. simpl. by rewrite slotsOf_nil.
  - intros [Hnd [Hfresh _]]%NoDup_app Hlt.
    assert (i ∉ sched) as Hi.
    { intros Hin. apply (Hfresh i Hin), list_elem_of_here. }
    assert (i < length ts) as Hits.
    { apply Hlt, elem_of_app. right. apply list_elem_of_here. }
    destruct (lookup_lt_is_Some_2 ts i Hits) as [s Hs].
    rewrite fmap_app.
    change (Settle (length (pending rt)) <$> [i])
      with [Settle (length (pending rt)) i].
    rewrite run_snoc, IH; [| done |];
      [| intros k Hk; apply Hlt, elem_of_app; by left].
    clear IH. rewrite settleAll_snoc, Hs. simpl.
    rewrite list_lookup_middle by done.
    unfold settle. simpl. rewrite Hs.
    unfold slotsOf at 1. rewrite list_lookup_imap, Hs. simpl.
    rewrite decide_False by done.
    pose proof (handler_snd j s (settleAll j ts sched st)) as Hv.
    destruct (handler j s (settleAll j ts sched st)) as [st' v]. simpl in *.
    subst v. rewrite insert_app_r_alt by done. rewrite Nat.sub_diag. simpl.
    by rewrite (slotsOf_snoc j ts sched i s Hs).
Qed.

Lemma spawned_results j ts st rt sched :
  sched ≡ₚ seq 0 (length ts) →
  results (run (spawn j ts st rt) (Settle (length (pending rt)) <$> sched))
    (length (pending rt)) = Some (handlerValue j <$> ts).
Proof.
  intros Hp. rewrite spawned_run.
  - unfold results. simpl. rewrite list_lookup_middle by done.
    by apply slotsOf_complete.
  - by eapply schedule_NoDup.
  - intros i Hi. by apply (schedule_elem _ _ _ Hp).
Qed.

(** *** Sessions *)

Lemma registerAll_bound us st :
  boundScrobblers (foldl registerAndAsk st us) = boundScrobblers st.
Proof.
  revert st. induction us as [|x us IH]; intros st; simpl; [done |].
  rewrite IH. apply registerScrobbler_bound.
Qed.

Lemma bindScrobbler_labels s st l :
  l ∈ labels (boundScrobblers (bindScrobbler s st)) ↔
  l ∈ labels (boundScrobblers st) ∨ l = getLabel s.
Proof.
  rewrite bound_bindScrobbler.
  destruct (isScrobblerInArray s (boundScrobblers st)) eqn:Hin.
  - apply isScrobblerInArray_true in Hin. split; [by left |].
    intros [Hl | ->]; done.
  - unfold labels. rewrite fmap_app, elem_of_app. simpl.
    by rewrite list_elem_of_singleton.
Qed.

Lemma bindScrobbler_prefix s st :
  boundScrobblers st `prefix_of` boundScrobblers (bindScrobbler s st).
Proof.
  rewrite bound_bindScrobbler.
  destruct (isScrobblerInArray s (boundScrobblers st)); [done | by eexists].
Qed.

Lemma bindScrobbler_console s st :
  console st `prefix_of` console (bindScrobbler s st).
Proof.
  unfold bindScrobbler.
  destruct (isScrobblerInArray s (boundScrobblers st)); simpl; [done | by eexists].
Qed.

Lemma settleAll_sessions us sched st :
  let st' := settleAll JobSession us sched st in
  (∀ l, l ∈ labels (boundScrobblers st') ↔
        l ∈ labels (boundScrobblers st) ∨
        ∃ i s, i ∈ sched ∧ us !! i = Some s ∧ getSession s = true ∧ getLabel s = l)
  ∧ boundScrobblers st `prefix_of` boundScrobblers st'
  ∧ console st `prefix_of` console st'
  ∧ (∀ i s, i ∈ sched → us !! i = Some s → getSession s = false →
            WarnUnableToBind (getLabel s) ∈ console st').
Proof.
  induction sched as [|i sched IH] using rev_ind; intros st'.
  - unfold st'. simpl. split; [| split; [done | split; [done |]]].
    + intros l. split; [by left |]. intros [Hl | (i & s & Hi & _)]; [done |].
      by apply not_elem_of_nil in Hi.
    + intros i s Hi. by apply not_elem_of_nil in Hi.
  - destruct IH as (Hlab & Hpre & Hcon & Hwarn).
    unfold st'. rewrite settleAll_snoc.
    destruct (us !! i) as [s |] eqn:Hs.
    + simpl. unfold onSession. destruct (getSession s) eqn:Hsess; simpl.
      * split; [| split; [| split]].
        -- intros l. rewrite bindScrobbler_labels, Hlab. split.
           ++ intros [[Hl | (k & x & Hk & Hx)] | ->].
              ** by left.
              ** right. exists k, x. split; [| done]. apply elem_of_app. by left.
              ** right. exists i, s. split; [| done].
                 apply elem_of_app. right. apply list_elem_of_here.
           ++ intros [Hl | (k & x & Hk & Hx & Hsx & Hlx)]; [left; by left |].
              apply elem_of_app in Hk as [Hk | Hk].
              ** left. right. by exists k, x.
              ** apply list_elem_of_singleton in Hk. subst k.
                 right. congruence.
        -- etrans; [exact Hpre | apply bindScrobbler_prefix].
        -- etrans; [exact Hcon | apply bindScrobbler_console].
        -- intros k x Hk Hx Hsx.
           apply elem_of_app in Hk as [Hk | Hk].
           ++ eapply elem_of_prefix; [by eapply Hwarn | apply bindScrobbler_console].
           ++ apply list_elem_of_singleton in Hk. subst k. congruence.
      * split; [| split; [| split]].
        -- intros l. rewrite Hlab. split.
           ++ intros [Hl | (k & x & Hk & Hx)]; [by left |].
              right. exists k, x. split; [| done]. apply elem_of_app. by left.
           ++ intros [Hl | (k & x & Hk & Hx & Hsx & Hlx)]; [by left |].
              apply elem_of_app in Hk as [Hk | Hk]; [right; by exists k, x |].
              apply list_elem_of_singleton in Hk. subst k. congruence.
        -- done.
        -- etrans; [exact Hcon | by eexists].
        -- intros k x Hk Hx Hsx. apply elem_of_app.
           apply elem_of_app in Hk as [Hk | Hk]; [left; by eapply Hwarn |].
           apply list_elem_of_singleton in Hk. subst k.
           right. replace x with s by congruence. apply list_elem_of_here.
    + split; [| split; [done | split; [done |]]].
      * intros l. rewrite Hlab. split.
        -- intros [Hl | (k & x & Hk & Hx)]; [by left |].
           right. exists k, x. split; [| done]. apply elem_of_app. by left.
        -- intros [Hl | (k & x & Hk & Hx & Hrest)]; [by left |].
           apply elem_of_app in Hk as [Hk | Hk]; [right; by exists k, x |].
           apply list_elem_of_singleton in Hk. subst k. congruence.
      * intros k x Hk Hx Hsx.
        apply elem_of_app in Hk as [Hk | Hk]; [by eapply Hwarn |].
        apply list_elem_of_singleton in Hk. subst k. congruence.
Qed.

Lemma fmap_handlerValue_session us :
  handlerValue JobSession <$> us = replicate (length us) Undefined.
Proof. induction us as [|x us IH]; csimpl; [done |]. by rewrite IH. Qed.

(** X6.  [registerScrobblers] runs alone and every [getSession] settles, in
    any order.  Then a label is bound exactly if it was bound before or
    belongs to a scrobbler of the batch whose session was obtained; no
    scrobbler was unbound and the earlier entries kept their places; each
    scrobbler without a session got its warning; and the promise of the
    call was fulfilled although sessions failed. *)
Theorem registerScrobblers_binds_those_with_session rt us sched :
  let tid := length (pending rt) in
  let rt' := run (registerScrobblers us rt) (Settle tid <$> sched) in
  sched ≡ₚ seq 0 (length us) →
  (∀ l, l ∈ labels (boundScrobblers (service rt')) ↔
        l ∈ labels (boundScrobblers (service rt)) ∨
        ∃ s, s ∈ us ∧ getSession s = true ∧ getLabel s = l)
  ∧ boundScrobblers (service rt) `prefix_of` boundScrobblers (service rt')
  ∧ (∀ s, s ∈ us → getSession s = false →
          WarnUnableToBind (getLabel s) ∈ console (service rt'))
  ∧ results rt' tid = Some (replicate (length us) Undefined).
Proof.
  intros tid rt' Hp. subst tid rt'. unfold registerScrobblers.
  rewrite spawned_results by done.
  rewrite spawned_run;
    [| by eapply schedule_NoDup | intros i Hi; by apply (schedule_elem _ _ _ Hp)].
  simpl.
  destruct (settleAll_sessions us sched (foldl registerAndAsk (service rt) us))
    as (Hlab & Hpre & _ & Hwarn).
  rewrite registerAll_bound in Hlab, Hpre.
  split; [| split; [done | split; [| by rewrite fmap_handlerValue_session]]].
  - intros l. rewrite Hlab. split.
    + intros [Hl | (i & s & _ & Hs & Hrest)]; [by left |].
      right. exists s. split; [| done]. apply list_elem_of_lookup. eauto.
    + intros [Hl | (s & (i & Hs)%list_elem_of_lookup & Hrest)]; [by left |].
      right. exists i, s. split; [| done].
      apply (schedule_elem _ _ _ Hp). by eapply lookup_lt_Some.
  - intros s (i & Hs)%list_elem_of_lookup Hsess.
    apply (Hwarn i s); [| done | done].
    apply (schedule_elem _ _ _ Hp). by eapply lookup_lt_Some.
Qed.

(** X7.  With no scrobbler bound, a broadcast invokes nothing and its
    promise is fulfilled with the empty array at once, without waiting for
    any event. *)
Theorem broadcast_without_bound_resolves_at_once rt req :
  boundScrobblers (service rt) = [] →
  let rt1 := step rt (broadcastCall req) in
  results rt1 (length (pending rt)) = Some []
  ∧ invocations (service rt1) = invocations (service rt)
  ∧ boundScrobblers (service rt1) = [].
Proof.
  intros Hb rt1. subst rt1. split; [| split].
  - unfold results. rewrite broadcastCall_pending, Hb. simpl.
    by rewrite list_lookup_middle.
  - rewrite broadcastCall_invocations, Hb. simpl. by rewrite app_nil_r.
  - by rewrite broadcastCall_bound.
Qed.

End FanOut.

(** ** Authentication that obtains a URL *)

Section Authentication.
Context `{Scrobblers}.
Implicit Types (p : Scrobbler) (rt : Runtime).

Lemma authenticate_run rt p (notify_ : bool) :
  let tid := length (pending rt) in
  run rt [CallAuthenticateScrobbler p notify_; Settle tid 0] =
    {| service :=
         (onAuthUrl (getLabel p) notify_ p (invoke p GetAuthUrl (service rt))).1;
       pending := pending rt ++
         [{| job := JobAuth (getLabel p) notify_; targets := [p];
             slots := [Some Undefined] |}] |}.
Proof.
  intros tid. subst tid.
  change (run rt [CallAuthenticateScrobbler p notify_; Settle (length (pending rt)) 0])
    with (run (spawn (JobAuth (getLabel p) notify_) [p]
                 (invoke p GetAuthUrl (service rt)) rt)
            (Settle (length (pending rt)) <$> [0])).
  rewrite spawned_run.
  - done.
  - apply NoDup_singleton.
  - intros i ->%list_elem_of_singleton. simpl. lia.
Qed.

(** X8.  [getAuthUrl] of [p] resolves with a URL and [notify] is true.
    Once the handler has run, the label of [p] is bound, whether or not
    [p] holds a session, the entries bound before kept their places, the
    notifier was asked exactly once to show the authentication, with the
    label of [p] and that URL, and no tab was opened. *)
Theorem authenticateScrobbler_asks_through_notifier rt p authUrl :
  getAuthUrl p = Some authUrl →
  let tid := length (pending rt) in
  let rt' := run rt [CallAuthenticateScrobbler p true; Settle tid 0] in
  isScrobblerInArray p (boundScrobblers (service rt')) = true
  ∧ boundScrobblers (service rt) `prefix_of` boundScrobblers (service rt')
  ∧ notifications (service rt') =
      notifications (service rt) ++ [ShowAuthenticate (getLabel p) authUrl]
  ∧ tabs (service rt') = tabs (service rt).
Proof.
  intros Hurl tid rt'. subst tid rt'. rewrite authenticate_run. simpl.
  unfold onAuthUrl. rewrite Hurl. simpl.
  split; [| split; [| split]].
  - apply isScrobblerInArray_true, bindScrobbler_labels. by right.
  - apply (bindScrobbler_prefix p (invoke p GetAuthUrl (service rt))).
  - unfold bindScrobbler. simpl.
    by destruct (isScrobblerInArray p (boundScrobblers (service rt))).
  - unfold bindScrobbler. simpl.
    by destruct (isScrobblerInArray p (boundScrobblers (service rt))).
Qed.

(** X9.  [getAuthUrl] of [p] resolves with a URL and [notify] is false.
    Once the handler has run, the label of [p] is bound, exactly one tab
    was opened, on that URL, and the notifier was not asked. *)
Theorem authenticateScrobbler_opens_tab rt p authUrl :
  getAuthUrl p = Some authUrl →
  let tid := length (pending rt) in
  let rt' := run rt [CallAuthenticateScrobbler p false; Settle tid 0] in
  isScrobblerInArray p (boundScrobblers (service rt')) = true
  ∧ boundScrobblers (service rt) `prefix_of` boundScrobblers (service rt')
  ∧ tabs (service rt') = tabs (service rt) ++ [authUrl]
  ∧ notifications (service rt') = notifications (service rt).
Proof.
  intros Hurl tid rt'. subst tid rt'. rewrite authenticate_run. simpl.
  unfold onAuthUrl. rewrite Hurl. simpl.
  split; [| split; [| split]].
  - apply isScrobblerInArray_true, bindScrobbler_labels. by right.
  - apply (bindScrobbler_prefix p (invoke p GetAuthUrl (service rt))).
  - unfold bindScrobbler. simpl.
    by destruct (isScrobblerInArray p (boundScrobblers (service rt))).
  - unfold bindScrobbler. simpl.
    by destruct (isScrobblerInArray p (boundScrobblers (service rt))).
Qed.

End Authentication.

(** ** Unbinding what is bound *)

Section Unbinding.
Context `{Scrobblers}.
Implicit Types (s x : Scrobbler) (st : State) (rt : Runtime)
  (arr : list Scrobbler).

Lemma filter_other_length s arr :
  NoDup arr → s ∈ arr → length (filter (λ x, x ≠ s) arr) + 1 = length arr.
Proof.
  induction arr as [|x arr IH]; intros Hnd Hin; [by apply not_elem_of_nil in Hin |].
  apply NoDup_cons in Hnd as [Hx Hnd]. rewrite filter_cons.
  destruct (decide (x ≠ s)) as [Hne | Heq]; simpl.
  - apply elem_of_cons in Hin as [-> | Hin]; [done |].
    by rewrite IH.
  - assert (x = s) as -> by (destruct (decide (x = s)); [done | by destruct Heq]).
    rewrite filter_other_not_elem by done. lia.
Qed.

Lemma labels_unique_same_label arr s x :
  NoDup (labels arr) → s ∈ arr → x ∈ arr → getLabel x = getLabel s → x = s.
Proof.
  intros Hnd (i & Hi)%list_elem_of_lookup (k & Hk)%list_elem_of_lookup Heq.
  assert (k = i) as ->.
  { apply (NoDup_lookup (labels arr) k i (getLabel s) Hnd); unfold labels;
      rewrite list_lookup_fmap; [rewrite Hk | rewrite Hi]; simpl; congruence. }
  congruence.
Qed.

(** X10.  Binding a scrobbler whose label is not bound and then unbinding
    it gives back the bound array as it was. *)
Theorem bind_then_unbind_restores_bound st s :
  getLabel s ∉ labels (boundScrobblers st) →
  boundScrobblers (unbindScrobbler s (bindScrobbler s st)) = boundScrobblers st.
Proof.
  intros Hnot. rewrite bound_unbindScrobbler, bound_bindScrobbler.
  apply isScrobblerInArray_false in Hnot as Hfalse. rewrite Hfalse.
  rewrite filter_app, filter_cons_False, filter_nil, app_nil_r
    by (intros Hne; by apply Hne).
  apply filter_other_not_elem. intros Hin.
  apply isScrobblerInArray_elem in Hin. congruence.
Qed.

(** X11.  In a bound array without repeated labels, unbinding a scrobbler
    that is stored in it removes exactly that entry: the array is one
    shorter, every other entry is still bound, and the label is free, so
    a scrobbler with that label can be bound again. *)
Theorem unbindScrobbler_frees_label st s :
  NoDup (labels (boundScrobblers st)) →
  s ∈ boundScrobblers st →
  let st' := unbindScrobbler s st in
  length (boundScrobblers st') + 1 = length (boundScrobblers st)
  ∧ (∀ x, x ∈ boundScrobblers st → x ≠ s → x ∈ boundScrobblers st')
  ∧ isScrobblerInArray s (boundScrobblers st') = false
  ∧ boundScrobblers (bindScrobbler s st') = boundScrobblers st' ++ [s].
Proof.
  intros Hnd Hin st'. subst st'.
  assert (isScrobblerInArray s (boundScrobblers (unbindScrobbler s st)) = false)
    as Hfree.
  { apply isScrobblerInArray_false. rewrite bound_unbindScrobbler.
    intros (x & Heq & [Hne Hx]%list_elem_of_filter)%list_elem_of_fmap.
    apply Hne. by apply (labels_unique_same_label (boundScrobblers st)). }
  split; [| split; [| split]].
  - rewrite bound_unbindScrobbler. apply filter_other_length; [| done].
    by eapply NoDup_fmap_1.
  - intros x Hx Hne. rewrite bound_unbindScrobbler. by apply list_elem_of_filter.
  - done.
  - by rewrite bound_bindScrobbler, Hfree.
Qed.

Lemma run_unsettled evs : ∀ rt tid (t : Task) i,
  pending rt !! tid = Some t → slots t !! i = Some None →
  Settle tid i ∉ evs →
  ∃ t', pending (run rt evs) !! tid = Some t' ∧ slots t' !! i = Some None
        ∧ job t' = job t ∧ targets t' = targets t.
Proof.
  unfold run. induction evs as [|ev evs IH]; intros rt tid t i Ht Hi Hnot; simpl.
  - by exists t.
  - apply not_elem_of_cons in Hnot as [Hne Hnot].
    destruct (step_pending rt ev tid t Ht) as [Hsame | (k & -> & Hset)].
    + by apply (IH _ _ t).
    + assert (k ≠ i) as Hki by congruence.
      destruct (IH _ _ _ i Hset) as (t' & Ht' & Hi' & Hjob & Htg); [| done |].
      * unfold settle. destruct (targets t !! k) as [s |]; [| done].
        destruct (slots t !! k) as [[v |] |]; [done | | done].
        destruct (handler (job t) s (service rt)) as [st' v]. simpl.
        by rewrite list_lookup_insert_ne.
      * exists t'. split; [done |]. split; [done |].
        rewrite Hjob, Htg. unfold settle.
        destruct (targets t !! k) as [s |]; [| done].
        destruct (slots t !! k) as [[v |] |]; [done | | done].
        by destruct (handler (job t) s (service rt)).
Qed.

(** X12.  A scrobbler addressed by a broadcast rejects with an
    authentication error.  Whatever calls and handlers ran since the
    broadcast was called, when the handler of that promise runs it filters
    this very object out of the bound array as it then is and leaves the
    other entries: afterwards the object is not bound. *)
Theorem auth_error_unbinds_under_interleaving rt req (evs : list Event) i s :
  let tid := length (pending rt) in
  let before := run (step rt (broadcastCall req)) evs in
  let after := step before (Settle tid i) in
  boundScrobblers (service rt) !! i = Some s →
  authFails req s = true →
  Settle tid i ∉ evs →
  boundScrobblers (service after) =
    filter (λ x, x ≠ s) (boundScrobblers (service before))
  ∧ s ∉ boundScrobblers (service after).
Proof.
  intros tid before after Hs Hauth Hnot. subst tid before after.
  destruct (run_unsettled evs (step rt (broadcastCall req)) (length (pending rt))
              {| job := JobSubmit req; targets := boundScrobblers (service rt);
                 slots := replicate (length (boundScrobblers (service rt))) None |} i)
    as (t' & Ht' & Hi' & Hjob & Htg); [| | done |].
  - rewrite broadcastCall_pending. by apply list_lookup_middle.
  - simpl. apply lookup_replicate_2. by eapply lookup_lt_Some.
  - simpl in Hjob, Htg.
    match goal with |- ?L = ?R ∧ _ => assert (L = R) as Hb end.
    { rewrite step_service_settle, Ht'.
      unfold settle. rewrite Htg, Hs, Hi', Hjob. simpl.
      rewrite onSubmit_eq, Hauth. simpl. apply bound_unbindScrobbler. }
    split; [done |]. rewrite Hb. intros [Hne _]%list_elem_of_filter. done.
Qed.

End Unbinding.

(** ** What broadcasts leave alone *)

Section Frame.
Context `{Scrobblers}.
Implicit Types (s : Scrobbler) (st : State) (rt : Runtime) (req : Request).

Lemma framed_refl st : framed st st.
Proof. by repeat split. Qed.

Lemma framed_trans st1 st2 st3 : framed st1 st2 → framed st2 st3 → framed st1 st3.
Proof.
  intros (Hr & Hn & Ht & Hb) (Hr' & Hn' & Ht' & Hb').
  repeat split; [congruence .. |]. by etrans.
Qed.

Lemma invokeAll_framed m ts st : framed st (invokeAll m ts st).
Proof.
  unfold invokeAll. revert st. induction ts as [|x ts IH]; intros st; simpl.
  - apply framed_refl.
  - eapply framed_trans; [| apply IH]. by repeat split.
Qed.

Lemma onSubmit_framed req s st : framed st (onSubmit req s st).1.
Proof.
  rewrite onSubmit_eq. simpl. destruct (authFails req s); [| apply framed_refl].
  unfold framed. rewrite bound_unbindScrobbler. unfold unbindScrobbler.
  destruct (isScrobblerInArray s (boundScrobblers st)); simpl;
    repeat split; apply sublist_filter.
Qed.

Lemma step_broadcast_framed rt ev :
  broadcastsOnly rt → isBroadcastEvent ev = true →
  broadcastsOnly (step rt ev) ∧ framed (service rt) (service (step rt ev)).
Proof.
  intros Hall Hev.
  destruct ev as [us | s | s | s n | song | song | song flag | tid i]; try done.
  - split.
    + unfold broadcastsOnly. simpl. apply Forall_app. split; [done |].
      apply Forall_singleton. by eexists.
    + eapply framed_trans; [| apply invokeAll_framed]. by repeat split.
  - split.
    + unfold broadcastsOnly. simpl. apply Forall_app. split; [done |].
      apply Forall_singleton. by eexists.
    + eapply framed_trans; [| apply invokeAll_framed]. by repeat split.
  - split.
    + unfold broadcastsOnly. simpl. apply Forall_app. split; [done |].
      apply Forall_singleton. by eexists.
    + apply invokeAll_framed.
  - simpl. destruct (pending rt !! tid) as [t |] eqn:Ht;
      [| split; [done | apply framed_refl]].
    destruct (Forall_lookup_1 _ _ _ _ Hall Ht) as [req Hjob].
    unfold settle. rewrite Hjob.
    destruct (targets t !! i) as [s |]; simpl; cycle 1.
    { split; [| apply framed_refl]. unfold broadcastsOnly. simpl.
      rewrite list_insert_id by done. done. }
    destruct (slots t !! i) as [[v |] |]; simpl; cycle 1.
    { pose proof (onSubmit_framed req s (service rt)) as Hfr.
      destruct (onSubmit req s (service rt)) as [st' v]. simpl in *.
      split; [| done]. unfold broadcastsOnly. simpl.
      apply Forall_insert; [done |]. by exists req. }
    all: split; [| apply framed_refl]; unfold broadcastsOnly; simpl;
      by rewrite list_insert_id.
Qed.

(** X13.  Broadcasts never bind and never register.  When only
    broadcasts are pending, calls of [sendNowPlaying], [scrobble] and
    [toggleLove] and the settling of their promises, in any number and
    order, leave the registered array, the notifier and the tabs untouched,
    and what is bound afterwards was bound before, in the same order. *)
Theorem broadcasts_never_bind rt (evs : list Event) :
  broadcastsOnly rt →
  forallb isBroadcastEvent evs = true →
  let st' := service (run rt evs) in
  registeredScrobblers st' = registeredScrobblers (service rt)
  ∧ notifications st' = notifications (service rt)
  ∧ tabs st' = tabs (service rt)
  ∧ boundScrobblers st' `sublist_of` boundScrobblers (service rt).
Proof.
  intros Hall Hevs st'. subst st'. change (framed (service rt) (service (run rt evs))).
  unfold run. revert rt Hall. induction evs as [|ev evs IH]; intros rt Hall; simpl.
  - apply framed_refl.
  - simpl in Hevs. apply andb_prop in Hevs as [Hev Hevs].
    destruct (step_broadcast_framed rt ev Hall Hev) as [Hall' Hfr].
    eapply framed_trans; [exact Hfr | by apply IH].
Qed.

End Frame.

(** ** The further statements at the concrete scrobblers *)

Section MoreInstances.

Ltac decided := by apply (bool_decide_unpack _).

(** Handle 4 settles first and binds the label of handle 1; scrobbler 2
    has no session. *)
Lemma registerScrobblers_binds_those_with_session_witness :
  let rt := demoRuntime [3] in
  let us := [1; 2; 4] in
  let rt' := run (H := demo) (registerScrobblers (H := demo) us rt)
               (Settle 0 <$> [2; 0; 1]) in
  ([2; 0; 1] ≡ₚ seq 0 3 ∧ boundScrobblers (service rt') = [3; 4])
  ∧ (∀ l, l ∈ labels (H := demo) (boundScrobblers (service rt')) ↔
          l ∈ labels (H := demo) [3] ∨
          ∃ s, s ∈ us ∧ getSession (Scrobblers := demo) s = true
               ∧ getLabel (Scrobblers := demo) s = l)
  ∧ [3] `prefix_of` boundScrobblers (service rt')
  ∧ (∀ s, s ∈ us → getSession (Scrobblers := demo) s = false →
          WarnUnableToBind (getLabel (Scrobblers := demo) s) ∈ console (service rt'))
  ∧ results rt' 0 = Some (replicate 3 Undefined).
Proof.
  intros rt us rt'. split; [split; [decided | reflexivity] |].
  apply (registerScrobblers_binds_those_with_session (H := demo) rt us [2; 0; 1]).
  decided.
Defined.

Lemma broadcast_without_bound_resolves_at_once_witness :
  let rt1 := step (H := demo) (demoRuntime []) (broadcastCall (Scrobble 5)) in
  results rt1 0 = Some []
  ∧ invocations (service rt1) = []
  ∧ boundScrobblers (service rt1) = [].
Proof.
  apply (broadcast_without_bound_resolves_at_once (H := demo) (demoRuntime [])
           (Scrobble 5)).
  reflexivity.
Defined.

(** Scrobbler 3 has no session yet and is bound all the same. *)
Lemma authenticateScrobbler_asks_through_notifier_witness :
  let rt' := run (H := demo) (demoRuntime [1])
               [CallAuthenticateScrobbler 3 true; Settle 0 0] in
  boundScrobblers (service rt') = [1; 3]
  ∧ isScrobblerInArray (H := demo) 3 (boundScrobblers (service rt')) = true
  ∧ [1] `prefix_of` boundScrobblers (service rt')
  ∧ notifications (service rt') =
      [ShowAuthenticate "ListenBrainz" "http://auth/ListenBrainz"]
  ∧ tabs (service rt') = [].
Proof.
  intros rt'. split; [reflexivity |].
  apply (authenticateScrobbler_asks_through_notifier (H := demo) (demoRuntime [1]) 3
           "http://auth/ListenBrainz").
  reflexivity.
Defined.

Lemma authenticateScrobbler_opens_tab_witness :
  let rt' := run (H := demo) (demoRuntime [1])
               [CallAuthenticateScrobbler 3 false; Settle 0 0] in
  isScrobblerInArray (H := demo) 3 (boundScrobblers (service rt')) = true
  ∧ [1] `prefix_of` boundScrobblers (service rt')
  ∧ tabs (service rt') = ["http://auth/ListenBrainz"]
  ∧ notifications (service rt') = [].
Proof.
  apply (authenticateScrobbler_opens_tab (H := demo) (demoRuntime [1]) 3
           "http://auth/ListenBrainz").
  reflexivity.
Defined.

Lemma bind_then_unbind_restores_bound_witness :
  (getLabel (Scrobblers := demo) 2 ∉ labels (H := demo) [1; 3])
  ∧ boundScrobblers
      (unbindScrobbler (H := demo) 2 (bindScrobbler (H := demo) 2 (demoState [1; 3])))
    = [1; 3].
Proof.
  split; [decided |].
  apply (bind_then_unbind_restores_bound (H := demo) (demoState [1; 3]) 2). decided.
Defined.

Lemma unbindScrobbler_frees_label_witness :
  let st' := unbindScrobbler (H := demo) 2 (demoState [1; 2; 3]) in
  (NoDup (labels (H := demo) [1; 2; 3]) ∧ boundScrobblers st' = [1; 3])
  ∧ length (boundScrobblers st') + 1 = 3
  ∧ (∀ x, x ∈ [1; 2; 3] → x ≠ 2 → x ∈ boundScrobblers st')
  ∧ isScrobblerInArray (H := demo) 2 (boundScrobblers st') = false
  ∧ boundScrobblers (bindScrobbler (H := demo) 2 st') = boundScrobblers st' ++ [2].
Proof.
  intros st'. split; [split; [decided | reflexivity] |].
  apply (unbindScrobbler_frees_label (H := demo) (demoState [1; 2; 3]) 2); decided.
Defined.

(** Scrobbler 2 was unbound by a call while its promise was pending. *)
Lemma auth_error_unbinds_under_interleaving_witness :
  let evs := [Settle 0 0; CallUnbindScrobbler 2] in
  let before := run (H := demo)
                  (step (H := demo) (demoRuntime [1; 2; 3]) (broadcastCall (Scrobble 5)))
                  evs in
  let after := step (H := demo) before (Settle 0 1) in
  boundScrobblers (service before) = [1; 3]
  ∧ boundScrobblers (service after) =
      filter (λ x, x ≠ 2) (boundScrobblers (service before))
  ∧ 2 ∉ boundScrobblers (service after).
Proof.
  intros evs before after. split; [reflexivity |].
  apply (auth_error_unbinds_under_interleaving (H := demo) (demoRuntime [1; 2; 3])
           (Scrobble 5) evs 1 2); [reflexivity | reflexivity |].
  unfold evs. rewrite !not_elem_of_cons.
  repeat split; try discriminate. apply not_elem_of_nil.
Defined.

Lemma broadcasts_never_bind_witness :
  let evs := [CallScrobble 5; CallToggleLove 5 true; Settle 0 1; Settle 1 1;
              Settle 1 0] in
  let st' := service (run (H := demo) (demoRuntime [1; 2; 3]) evs) in
  boundScrobblers st' = [1; 3]
  ∧ registeredScrobblers st' = []
  ∧ notifications st' = []
  ∧ tabs st' = []
  ∧ boundScrobblers st' `sublist_of` [1; 2; 3].
Proof.
  intros evs st'. split; [reflexivity |].
  apply (broadcasts_never_bind (H := demo) (demoRuntime [1; 2; 3]) evs);
    [apply Forall_nil_2 | reflexivity].
Defined.

End MoreInstances.
